(** * ConstraintToVarBoundTransform: constraints to variable bounds

    A shallow embedding of
    [pyomo/contrib/preprocessing/plugins/bounds_to_vars.py].

    The transformation walks over the active constraints of a model.  A
    constraint whose body is [coef * var + const] is turned into a bound on
    [var], the constraint is deactivated and the value of [var] is moved
    inside its bounds.

    Numbers.  The source computes with Python numbers.  They are embedded as
    exact rationals ([Q]); numeric equality (Python's [==]) is [Qeq], and the
    comparisons [<] and [>] are decided by [Qcompare].  Rounding, infinities
    and NaN are outside this model.

    Objects.  Variables are objects shared between constraints: a constraint
    holds references ([VarId]) into the variable store of its model, and the
    transformation mutates the store.  Constraints are visited in the order
    in which [component_data_objects] yields them, which is the order of the
    list [constraints]. *)

From Stdlib Require Import QArith Qabs Lqa.
From stdpp Require Import base option list functions gmap.

Local Open Scope Q_scope.

(** ** Python numbers and exceptions *)

(** [a < b] on numbers. *)
Definition Qltb (a b : Q) : bool :=
  match a ?= b with Lt => true | _ => false end.

(** Python's [min(a, b)]: the first argument, unless the second is strictly
    smaller. *)
Definition pymin (a b : Q) : Q := if Qltb b a then b else a.

(** Python's [max(a, b)]: the first argument, unless the second is strictly
    greater. *)
Definition pymax (a b : Q) : Q := if Qltb a b then b else a.

Inductive exn : Type :=
| ZeroDivisionError
| InvalidReference.

Inductive result (A : Type) : Type :=
| Ok (a : A)
| Raise (e : exn).
Arguments Ok {A} a.
Arguments Raise {A} e.

Global Instance result_ret : MRet result := fun A a => Ok a.

Global Instance result_bind : MBind result := fun A B k m =>
  match m with
  | Ok a => k a
  | Raise e => Raise e
  end.

(** True division ([from __future__ import division]): a zero divisor
    raises. *)
Definition truediv (a b : Q) : result Q :=
  if Qeq_bool b 0 then Raise ZeroDivisionError else Ok (a / b).

(** ** Variables *)

Definition VarId : Type := nat.

Record VarData : Type := mkVar {
  lb : option Q;
  ub : option Q;
  value : option Q
}.

Definition setlb (var : VarData) (b : Q) : VarData :=
  {| lb := Some b; ub := ub var; value := value var |}.

Definition setub (var : VarData) (b : Q) : VarData :=
  {| lb := lb var; ub := Some b; value := value var |}.

Definition set_value (var : VarData) (x : Q) : VarData :=
  {| lb := lb var; ub := ub var; value := Some x |}.

Definition has_lb (var : VarData) : bool :=
  match lb var with Some _ => true | None => false end.

Definition has_ub (var : VarData) : bool :=
  match ub var with Some _ => true | None => false end.

(** The variable objects of a model, by reference. *)
Definition VarStore : Type := VarId -> VarData.

(** ** Linear form of a constraint body *)

(** The result of [generate_standard_repn]: the constant, the linear terms
    (the tuples [linear_vars] and [linear_coefs], which have the same
    length, kept as one list of pairs) and whether a quadratic or nonlinear
    part is left. *)
Record StandardRepn : Type := mkRepn {
  constant : Q;
  linear_terms : list (VarId * Q);
  nonlinear_part : bool
}.

Definition linear_vars (repn : StandardRepn) : list VarId :=
  map fst (linear_terms repn).

Definition linear_coefs (repn : StandardRepn) : list Q :=
  map snd (linear_terms repn).

Definition is_linear (repn : StandardRepn) : bool :=
  negb (nonlinear_part repn).

(** ** Constraints and models *)

Record ConstraintData (Expr : Type) : Type := mkConstraint {
  body : Expr;
  lower : option Q;
  upper : option Q;
  active : bool
}.
Arguments mkConstraint {Expr} body lower upper active.
Arguments body {Expr} c.
Arguments lower {Expr} c.
Arguments upper {Expr} c.
Arguments active {Expr} c.

Definition deactivate {Expr : Type} (constr : ConstraintData Expr)
  : ConstraintData Expr :=
  {| body := body constr; lower := lower constr; upper := upper constr;
     active := false |}.

Record Model (Expr : Type) : Type := mkModel {
  vars : VarStore;
  constraints : list (ConstraintData Expr)
}.
Arguments mkModel {Expr} vars constraints.
Arguments vars {Expr} m.
Arguments constraints {Expr} m.

(** ** The transformation *)

Section Transform.

(** The expression language and its linear-form decomposition belong to
    the modelling framework ([pyomo.repn]); so does the closeness test
    ([pyutilib.math.util.isclose]).  Both are parameters. *)
Context {Expr : Type}.
Variable generate_standard_repn : Expr -> StandardRepn.
Variable isclose : Q -> Q -> bool.

Abbreviation Constraint := (ConstraintData Expr).

(** Lines 58-67: the upper bound of the constraint. *)
Definition fold_upper (constr : Constraint) (const coef : Q)
    (var : VarData) : result VarData :=
  match upper constr with
  | Some U =>
      newbound ← truediv (U - const) coef;
      if Qltb 0 coef then
        Ok (setub var (match ub var with
                       | Some u => pymin u newbound
                       | None => newbound
                       end))
      else if Qltb coef 0 then
        Ok (setlb var (match lb var with
                       | Some l => pymax l newbound
                       | None => newbound
                       end))
      else Ok var
  | None => Ok var
  end.

(** Lines 68-77: the lower bound of the constraint. *)
Definition fold_lower (constr : Constraint) (const coef : Q)
    (var : VarData) : result VarData :=
  match lower constr with
  | Some L =>
      newbound ← truediv (L - const) coef;
      if Qltb 0 coef then
        Ok (setlb var (match lb var with
                       | Some l => pymax l newbound
                       | None => newbound
                       end))
      else if Qltb coef 0 then
        Ok (setub var (match ub var with
                       | Some u => pymin u newbound
                       | None => newbound
                       end))
      else Ok var
  | None => Ok var
  end.

(** Lines 53-77. *)
Definition derive_bounds (constr : Constraint) (const coef : Q)
    (var : VarData) : result VarData :=
  if isclose coef 0 then Ok var
  else
    var1 ← fold_upper constr const coef var;
    fold_lower constr const coef var1.

(** Lines 86-88. *)
Definition repair_lb (var : VarData) : VarData :=
  match lb var, value var with
  | Some l, Some x => if Qltb x l then set_value var l else var
  | _, _ => var
  end.

(** Lines 89-91. *)
Definition repair_ub (var : VarData) : VarData :=
  match ub var, value var with
  | Some u, Some x => if Qltb u x then set_value var u else var
  | _, _ => var
  end.

(** The body of the loop, lines 47-91, for one constraint. *)
Definition visit (vs : VarStore) (constr : Constraint)
    : result (VarStore * Constraint) :=
  let repn := generate_standard_repn (body constr) in
  if is_linear repn then
    match linear_terms repn with
    | [(var, coef)] =>
        let const := constant repn in
        var1 ← derive_bounds constr const coef (vs var);
        let constr1 := deactivate constr in
        let var2 := repair_lb var1 in
        let var3 := repair_ub var2 in
        Ok (<[var := var3]> vs, constr1)
    | _ => Ok (vs, constr)
    end
  else Ok (vs, constr).

(** The loop of lines 43-91 over the constraints of the model:
    [component_data_objects (active=True)] yields a constraint only if it
    is active when its turn comes. *)
Fixpoint loop (vs : VarStore) (cs : list Constraint)
    : result (VarStore * list Constraint) :=
  match cs with
  | [] => Ok (vs, [])
  | constr :: rest =>
      '(vs1, constr1) ←
        (if active constr then visit vs constr else Ok (vs, constr));
      '(vs2, rest1) ← loop vs1 rest;
      Ok (vs2, constr1 :: rest1)
  end.

Definition _apply_to (m : Model Expr) : result (Model Expr) :=
  '(vs, cs) ← loop (vars m) (constraints m);
  Ok {| vars := vs; constraints := cs |}.

End Transform.

(** ** Divisions executed by the loop *)

Section Divisions.

Context {Expr : Type}.
Variable generate_standard_repn : Expr -> StandardRepn.
Variable isclose : Q -> Q -> bool.

(** The divisors of the divisions of lines 59 and 69 that a visit of
    [constr] executes, in the order of execution: the control flow of
    lines 47-69 with everything but the divisions left out. *)
Definition divisors_of_visit (constr : ConstraintData Expr) : list Q :=
  let repn := generate_standard_repn (body constr) in
  if is_linear repn then
    match linear_terms repn with
    | [(var, coef)] =>
        if isclose coef 0 then []
        else
          (match upper constr with Some _ => [coef] | None => [] end) ++
          (match lower constr with Some _ => [coef] | None => [] end)
    | _ => []
    end
  else [].

(** The divisors of all divisions of one run of the loop.  No visit
    changes the body, the bounds or the active flag of another
    constraint, so the flags are those of the start. *)
Definition divisors (cs : list (ConstraintData Expr)) : list Q :=
  flat_map (fun constr =>
              if active constr then divisors_of_visit constr else []) cs.

End Divisions.

(** ** Models as objects: the two entry points *)

Module Heap.

Definition loc : Type := positive.

Section Entry.

Context {Expr : Type}.
Variable generate_standard_repn : Expr -> StandardRepn.
Variable isclose : Q -> Q -> bool.

(** Modelled from the spec: [model.clone()] is a method of the modelling
    framework and is not part of the plugin.  The spec has it produce a
    new model, equal to the given one, that shares nothing with it: a
    copy of the model, with its own variables and constraints, at a
    location that is not in use. *)
Definition clone (model : loc) (h : gmap loc (Model Expr))
    : result (loc * gmap loc (Model Expr)) :=
  match h !! model with
  | Some m => let l := fresh (dom h) in Ok (l, <[l := m]> h)
  | None => Raise InvalidReference
  end.

(** [_apply_to] on a model object: the object is mutated in place. *)
Definition _apply_to (model : loc) (h : gmap loc (Model Expr))
    : result (gmap loc (Model Expr)) :=
  match h !! model with
  | Some m =>
      m1 ← _apply_to generate_standard_repn isclose m;
      Ok (<[model := m1]> h)
  | None => Raise InvalidReference
  end.

(** Lines 33-37. *)
Definition _create_using (model : loc) (h : gmap loc (Model Expr))
    : result (loc * gmap loc (Model Expr)) :=
  '(m, h1) ← clone model h;
  h2 ← _apply_to m h1;
  Ok (m, h2).

End Entry.

End Heap.

(** ** The closeness test of the spec *)

(** Modelled from the spec: [isclose] comes from [pyutilib.math.util] and is
    not part of the plugin.  The spec describes the test [isclose(coef, 0)]
    as an absolute tolerance: anything closer to zero than a fixed epsilon
    is degenerate. *)
Definition isclose_abs (epsilon : Q) (a b : Q) : bool :=
  Qltb (Qabs (a - b)) epsilon.

(** The epsilon the spec gives as an example, 1e-8. *)
Definition epsilon : Q := 1 # 100000000.

(** ** Vocabulary of the properties *)

(** [after] is at least as tight a lower bound as [before]: a bound that is
    set stays set and does not decrease. *)
Definition lb_no_looser (before after : option Q) : Prop :=
  match before, after with
  | Some b, Some a => b <= a
  | Some _, None => False
  | None, _ => True
  end.

(** [after] is at least as tight an upper bound as [before]. *)
Definition ub_no_looser (before after : option Q) : Prop :=
  match before, after with
  | Some b, Some a => a <= b
  | Some _, None => False
  | None, _ => True
  end.

(** Numeric equality of optional bounds. *)
Definition bound_eq (a b : option Q) : Prop :=
  match a, b with
  | Some x, Some y => x == y
  | None, None => True
  | _, _ => False
  end.

(** Two stores give every variable numerically equal bounds. *)
Definition same_bounds (vs1 vs2 : VarStore) : Prop :=
  forall x, bound_eq (lb (vs1 x)) (lb (vs2 x)) /\
            bound_eq (ub (vs1 x)) (ub (vs2 x)).

(** The value of a variable respects its upper bound. *)
Definition value_le_ub (var : VarData) : Prop :=
  match value var, ub var with
  | Some x, Some u => x <= u
  | _, _ => True
  end.

(** The value of a variable respects its lower bound. *)
Definition lb_le_value (var : VarData) : Prop :=
  match value var, lb var with
  | Some x, Some l => l <= x
  | _, _ => True
  end.

(** The bounds of a variable do not cross. *)
Definition bounds_consistent (var : VarData) : Prop :=
  match lb var, ub var with
  | Some l, Some u => l <= u
  | _, _ => True
  end.

(** The variable respects its upper bound, and its lower bound too if its
    bounds do not cross. *)
Definition repaired (var : VarData) : Prop :=
  value_le_ub var /\ (bounds_consistent var -> lb_le_value var).

(** New lower bound after one candidate for it. *)
Definition tighten_lb (old : option Q) (newbound : option Q) : option Q :=
  match newbound with
  | Some b => Some (match old with Some l => pymax l b | None => b end)
  | None => old
  end.

(** New upper bound after one candidate for it. *)
Definition tighten_ub (old : option Q) (newbound : option Q) : option Q :=
  match newbound with
  | Some b => Some (match old with Some u => pymin u b | None => b end)
  | None => old
  end.

Section Candidates.

Context {Expr : Type}.
Variable generate_standard_repn : Expr -> StandardRepn.
Variable isclose : Q -> Q -> bool.

(** The constraints the loop acts on: a linear body with exactly one
    variable (lines 48-49).  Gives the variable and its coefficient. *)
Definition single_var (constr : ConstraintData Expr) : option (VarId * Q) :=
  let repn := generate_standard_repn (body constr) in
  if is_linear repn then
    match linear_terms repn with
    | [(var, coef)] => Some (var, coef)
    | _ => None
    end
  else None.

(** The bound a constraint implies from above on its variable, if any. *)
Definition implied_ub (constr : ConstraintData Expr) (const coef : Q)
    : option Q :=
  if isclose coef 0 then None
  else if Qltb 0 coef then
    match upper constr with Some U => Some ((U - const) / coef) | None => None end
  else if Qltb coef 0 then
    match lower constr with Some L => Some ((L - const) / coef) | None => None end
  else None.

(** The bound a constraint implies from below on its variable, if any. *)
Definition implied_lb (constr : ConstraintData Expr) (const coef : Q)
    : option Q :=
  if isclose coef 0 then None
  else if Qltb 0 coef then
    match lower constr with Some L => Some ((L - const) / coef) | None => None end
  else if Qltb coef 0 then
    match upper constr with Some U => Some ((U - const) / coef) | None => None end
  else None.

(** The variable after lines 53-91, when no division fails. *)
Definition folded (constr : ConstraintData Expr) (const coef : Q)
    (var : VarData) : VarData :=
  repair_ub (repair_lb
    {| lb := tighten_lb (lb var) (implied_lb constr const coef);
       ub := tighten_ub (ub var) (implied_ub constr const coef);
       value := value var |}).

(** The bound from below that the visit of [constr] in the loop brings to the
    variable [x]: none if the loop does not visit [constr] or if [constr] is
    about another variable. *)
Definition brought_lb (constr : ConstraintData Expr) (x : VarId) : option Q :=
  if active constr then
    match single_var constr with
    | Some (var, coef) =>
        if decide (var = x) then
          implied_lb constr (constant (generate_standard_repn (body constr))) coef
        else None
    | None => None
    end
  else None.

(** The bound from above that the visit of [constr] in the loop brings to
    the variable [x]. *)
Definition brought_ub (constr : ConstraintData Expr) (x : VarId) : option Q :=
  if active constr then
    match single_var constr with
    | Some (var, coef) =>
        if decide (var = x) then
          implied_ub constr (constant (generate_standard_repn (body constr))) coef
        else None
    | None => None
    end
  else None.

(** The store a visit in the loop leaves, when no division fails. *)
Definition visited_store (vs : VarStore) (constr : ConstraintData Expr)
  : VarStore :=
  if active constr then
    match single_var constr with
    | Some (var, coef) =>
        let const := constant (generate_standard_repn (body constr)) in
        <[var := folded constr const coef (vs var)]> vs
    | None => vs
    end
  else vs.

(** The constraint a visit in the loop leaves. *)
Definition visited_constr (constr : ConstraintData Expr)
  : ConstraintData Expr :=
  if active constr then
    match single_var constr with
    | Some _ => deactivate constr
    | None => constr
    end
  else constr.

(** The store the loop leaves, when no division fails. *)
Definition run_store (vs : VarStore) (cs : list (ConstraintData Expr))
  : VarStore :=
  fold_left visited_store cs vs.

(** [var] is the variable of an active single-variable linear constraint of
    [cs]: the loop visits a constraint on [var]. *)
Definition visited_var (cs : list (ConstraintData Expr)) (var : VarId) : Prop :=
  exists constr coef,
    In constr cs /\ active constr = true /\
    single_var constr = Some (var, coef).

End Candidates.

(** ** Example models

    Bodies are given directly by their linear form. *)

Definition x : VarId := 0%nat.
Definition y : VarId := 1%nat.

Definition unbounded : VarData := {| lb := None; ub := None; value := None |}.

Definition free_store : VarStore := fun _ => unbounded.

(** [2*x + 1 <= 5]. *)
Definition two_x_plus_one_le_five : ConstraintData StandardRepn :=
  {| body := {| constant := 1; linear_terms := [(x, 2)]; nonlinear_part := false |};
     lower := None; upper := Some 5; active := true |}.

(** [-3*x <= 6]. *)
Definition minus_three_x_le_six : ConstraintData StandardRepn :=
  {| body := {| constant := 0; linear_terms := [(x, -3)]; nonlinear_part := false |};
     lower := None; upper := Some 6; active := true |}.

(** [0*x + 5 <= 10]. *)
Definition zero_x_plus_five_le_ten : ConstraintData StandardRepn :=
  {| body := {| constant := 5; linear_terms := [(x, 0)]; nonlinear_part := false |};
     lower := None; upper := Some 10; active := true |}.

(** [x + y <= 4]. *)
Definition x_plus_y_le_four : ConstraintData StandardRepn :=
  {| body := {| constant := 0; linear_terms := [(x, 1); (y, 1)];
                nonlinear_part := false |};
     lower := None; upper := Some 4; active := true |}.

(** [4 <= x]. *)
Definition four_le_x : ConstraintData StandardRepn :=
  {| body := {| constant := 0; linear_terms := [(x, 1)]; nonlinear_part := false |};
     lower := Some 4; upper := None; active := true |}.

(** [x <= 3]. *)
Definition x_le_three : ConstraintData StandardRepn :=
  {| body := {| constant := 0; linear_terms := [(x, 1)]; nonlinear_part := false |};
     lower := None; upper := Some 3; active := true |}.

Definition repn_id (e : StandardRepn) : StandardRepn := e.

(** [x] has the value 3 and no bounds. *)
Definition x_at_three : VarStore :=
  fun var => if Nat.eqb var x
             then {| lb := None; ub := None; value := Some 3 |}
             else unbounded.

(** [x] has the upper bound 1. *)
Definition x_below_one : VarStore :=
  fun var => if Nat.eqb var x
             then {| lb := None; ub := Some 1; value := None |}
             else unbounded.

(** [x] has the lower bound 1 and the value 0. *)
Definition x_under_its_lb : VarStore :=
  fun var => if Nat.eqb var x
             then {| lb := Some 1; ub := None; value := Some 0 |}
             else unbounded.

(** [x] has the value 5 and no bounds; [y] has the lower bound 1 and the
    value 0. *)
Definition x_at_five_y_under_its_lb : VarStore :=
  fun var => if Nat.eqb var x
             then {| lb := None; ub := None; value := Some 5 |}
             else if Nat.eqb var y
             then {| lb := Some 1; ub := None; value := Some 0 |}
             else unbounded.

(** The constraints of the scenarios of the spec on one model. *)
Definition scenarios : Model StandardRepn :=
  {| vars := x_at_three;
     constraints := [two_x_plus_one_le_five; minus_three_x_le_six;
                     zero_x_plus_five_le_ten; x_plus_y_le_four] |}.

(** [x <= 3] and [4 <= x] on [x]; no constraint on [y]. *)
Definition crossing : Model StandardRepn :=
  {| vars := x_at_five_y_under_its_lb;
     constraints := [x_le_three; four_le_x] |}.

(** ** Vocabulary of the further properties *)

(** The number [x0] is not below the bound [b], if that is set. *)
Definition above_lb (b : option Q) (x0 : Q) : Prop :=
  match b with Some l => l <= x0 | None => True end.

(** The number [x0] is not above the bound [b], if that is set. *)
Definition below_ub (b : option Q) (x0 : Q) : Prop :=
  match b with Some u => x0 <= u | None => True end.

(** [x0] is a value the bounds of the variable allow. *)
Definition within_bounds (var : VarData) (x0 : Q) : Prop :=
  above_lb (lb var) x0 /\ below_ub (ub var) x0.

(** [x0] satisfies the constraint [lower <= coef * x0 + const <= upper]. *)
Definition satisfies {Expr : Type} (constr : ConstraintData Expr)
    (const coef x0 : Q) : Prop :=
  above_lb (lower constr) (coef * x0 + const) /\
  below_ub (upper constr) (coef * x0 + const).

(** The value of the variable is [original], or it is set and is the lower
    or the upper bound of the variable. *)
Definition value_from (original : option Q) (var : VarData) : Prop :=
  value var = original \/
  (value var <> None /\ (value var = lb var \/ value var = ub var)).

(** The value of the variable is its upper bound if its bounds cross. *)
Definition at_ub_if_crossing (var : VarData) : Prop :=
  forall l u, lb var = Some l -> ub var = Some u -> u < l ->
              value var <> None -> value var = Some u.

Section ZeroDivisors.

Context {Expr : Type}.
Variable generate_standard_repn : Expr -> StandardRepn.
Variable isclose : Q -> Q -> bool.

(** Lines 53-69 reach a division by a zero [coef]: the coefficient is zero,
    it is not close to zero for [isclose], and the constraint has a bound. *)
Definition zero_divisor (constr : ConstraintData Expr) (coef : Q) : bool :=
  negb (isclose coef 0) && Qeq_bool coef 0 &&
  (match upper constr with Some _ => true | None => false end ||
   match lower constr with Some _ => true | None => false end).

(** The visit of [constr] in the loop divides by zero. *)
Definition divides_by_zero (constr : ConstraintData Expr) : bool :=
  if active constr then
    match single_var generate_standard_repn constr with
    | Some (_, coef) => zero_divisor constr coef
    | None => false
    end
  else false.

End ZeroDivisors.

(** * Properties *)

(** ** Numbers *)

Lemma Qltb_lt (a b : Q) : Qltb a b = true <-> a < b.
Proof.
  unfold Qltb. rewrite Qlt_alt. destruct (a ?= b); split; congruence.
Qed.

Lemma Qltb_ge (a b : Q) : Qltb a b = false <-> b <= a.
Proof.
  rewrite <- not_true_iff_false, Qltb_lt. split.
  - apply Qnot_lt_le.
  - apply Qle_not_lt.
Qed.

Lemma pymin_le_l (a b : Q) : pymin a b <= a.
Proof.
  unfold pymin. destruct (Qltb b a) eqn:E.
  - apply Qltb_lt in E. lra.
  - lra.
Qed.

Lemma pymin_le_r (a b : Q) : pymin a b <= b.
Proof.
  unfold pymin. destruct (Qltb b a) eqn:E.
  - lra.
  - apply Qltb_ge in E. lra.
Qed.

Lemma pymax_ge_l (a b : Q) : a <= pymax a b.
Proof.
  unfold pymax. destruct (Qltb a b) eqn:E.
  - apply Qltb_lt in E. lra.
  - lra.
Qed.

Lemma pymax_ge_r (a b : Q) : b <= pymax a b.
Proof.
  unfold pymax. destruct (Qltb a b) eqn:E.
  - lra.
  - apply Qltb_ge in E. lra.
Qed.

Lemma pymin_cases (a b : Q) :
  (b < a /\ pymin a b = b) \/ (a <= b /\ pymin a b = a).
Proof.
  unfold pymin. destruct (Qltb b a) eqn:E.
  - left. apply Qltb_lt in E. auto.
  - right. apply Qltb_ge in E. auto.
Qed.

Lemma pymax_cases (a b : Q) :
  (a < b /\ pymax a b = b) \/ (b <= a /\ pymax a b = a).
Proof.
  unfold pymax. destruct (Qltb a b) eqn:E.
  - left. apply Qltb_lt in E. auto.
  - right. apply Qltb_ge in E. auto.
Qed.

Lemma truediv_nonzero (a b : Q) : ~ b == 0 -> truediv a b = Ok (a / b).
Proof.
  intros Hb. unfold truediv. destruct (Qeq_bool b 0) eqn:E; [|reflexivity].
  apply Qeq_bool_iff in E. contradiction.
Qed.

Lemma truediv_zero (a b : Q) : b == 0 -> truediv a b = Raise ZeroDivisionError.
Proof.
  intros Hb. unfold truediv. apply Qeq_bool_iff in Hb. now rewrite Hb.
Qed.

Lemma isclose_abs_zero (eps : Q) :
  0 < eps -> forall c, c == 0 -> isclose_abs eps c 0 = true.
Proof.
  intros Heps c Hc. unfold isclose_abs. apply Qltb_lt.
  apply Qabs_Qlt_condition. lra.
Qed.

Lemma isclose_abs_true (eps c : Q) :
  isclose_abs eps c 0 = true <-> Qabs c < eps.
Proof.
  unfold isclose_abs. rewrite Qltb_lt.
  assert (H : c - 0 == c) by ring. now rewrite H.
Qed.

Lemma isclose_abs_false (eps c : Q) :
  isclose_abs eps c 0 = false <-> eps <= Qabs c.
Proof.
  unfold isclose_abs. rewrite Qltb_ge.
  assert (H : c - 0 == c) by ring. now rewrite H.
Qed.

(** ** The variable store *)

Lemma store_lookup_insert (vs : VarStore) (var : VarId) (v : VarData) :
  (<[var := v]> vs) var = v.
Proof. apply fn_lookup_insert. Qed.

Lemma store_lookup_insert_ne (vs : VarStore) (var other : VarId) (v : VarData) :
  var <> other -> (<[var := v]> vs) other = vs other.
Proof. apply fn_lookup_insert_ne. Qed.

(** ** One visit *)

Section VisitFacts.

Context {Expr : Type}.
Variable generate_standard_repn : Expr -> StandardRepn.
Variable isclose : Q -> Q -> bool.

(** A zero coefficient is close to zero.  With this the guard of line 53
    keeps every division away from a zero divisor. *)
Hypothesis isclose_zero : forall c, c == 0 -> isclose c 0 = true.

Local Abbreviation visit' := (visit generate_standard_repn isclose).
Local Abbreviation loop' := (loop generate_standard_repn isclose).
Local Abbreviation single_var' := (single_var generate_standard_repn).
Local Abbreviation repn_of constr := (generate_standard_repn (body constr)).

Lemma not_close_nonzero (coef : Q) : isclose coef 0 = false -> ~ coef == 0.
Proof. intros Hc Hz. apply isclose_zero in Hz. congruence. Qed.

Lemma derive_bounds_folded (constr : ConstraintData Expr) const coef var :
  derive_bounds isclose constr const coef var =
  Ok {| lb := tighten_lb (lb var) (implied_lb isclose constr const coef);
        ub := tighten_ub (ub var) (implied_ub isclose constr const coef);
        value := value var |}.
Proof.
  unfold derive_bounds, implied_lb, implied_ub.
  destruct (isclose coef 0) eqn:Hclose.
  { destruct var; reflexivity. }
  pose proof (not_close_nonzero _ Hclose) as Hnz.
  unfold fold_upper, fold_lower.
  destruct (Qltb 0 coef) eqn:Hpos; [|destruct (Qltb coef 0) eqn:Hneg].
  - destruct (upper constr), (lower constr); cbn;
      rewrite ?truediv_nonzero by assumption; cbn; rewrite ?Hpos;
      destruct var; reflexivity.
  - destruct (upper constr), (lower constr); cbn;
      rewrite ?truediv_nonzero by assumption; cbn; rewrite ?Hpos, ?Hneg;
      destruct var; reflexivity.
  - apply Qltb_ge in Hpos, Hneg. exfalso. apply Hnz. lra.
Qed.

Lemma single_var_Some (constr : ConstraintData Expr) var coef :
  single_var' constr = Some (var, coef) <->
  is_linear (repn_of constr) = true /\
  linear_terms (repn_of constr) = [(var, coef)].
Proof.
  unfold single_var. destruct (is_linear _).
  - destruct (linear_terms _) as [|[v c] [|t ts]]; split;
      try (intros [_ H]); try intros H; try discriminate; try (split; congruence).
    congruence.
  - split; [discriminate | intros [H _]; discriminate].
Qed.

Lemma single_var_None (constr : ConstraintData Expr) :
  single_var' constr = None <->
  is_linear (repn_of constr) = false \/
  length (linear_vars (repn_of constr)) <> 1%nat.
Proof.
  unfold single_var, linear_vars. destruct (is_linear _).
  - destruct (linear_terms _) as [|[v c] [|t ts]]; cbn; split;
      try (intros [H|H]); try intros H; try discriminate; try congruence;
      try (right; congruence); try lia.
  - split; auto.
Qed.

Lemma single_var_length (constr : ConstraintData Expr) :
  is_linear (repn_of constr) = true ->
  length (linear_vars (repn_of constr)) = 1%nat ->
  exists var coef, single_var' constr = Some (var, coef).
Proof.
  intros Hlin Hlen. destruct (single_var' constr) as [[v c]|] eqn:E; eauto.
  apply single_var_None in E as [E|E]; congruence.
Qed.

Lemma visit_single_var vs (constr : ConstraintData Expr) var coef :
  single_var' constr = Some (var, coef) ->
  visit' vs constr =
  Ok (<[var := folded isclose constr (constant (repn_of constr)) coef (vs var)]> vs,
      deactivate constr).
Proof.
  intros H. apply single_var_Some in H as [Hlin Hterms].
  unfold visit. rewrite Hlin, Hterms, derive_bounds_folded. reflexivity.
Qed.

Lemma visit_not_single_var vs (constr : ConstraintData Expr) :
  single_var' constr = None -> visit' vs constr = Ok (vs, constr).
Proof.
  unfold single_var, visit. destruct (is_linear _); [|reflexivity].
  destruct (linear_terms _) as [|[v c] [|t ts]]; try reflexivity.
  discriminate.
Qed.

End VisitFacts.

Lemma epsilon_pos : 0 < epsilon.
Proof. reflexivity. Qed.

Lemma isclose_epsilon_zero : forall c, c == 0 -> isclose_abs epsilon c 0 = true.
Proof. exact (isclose_abs_zero epsilon epsilon_pos). Qed.

(** ** C1: the bounds a visit sets *)

Section BoundDerivation.

Context {Expr : Type}.
Variable generate_standard_repn : Expr -> StandardRepn.
Variable isclose : Q -> Q -> bool.
Hypothesis isclose_zero : forall c, c == 0 -> isclose c 0 = true.

Local Abbreviation repn_of constr := (generate_standard_repn (body constr)).

Lemma lb_repair_lb var : lb (repair_lb var) = lb var.
Proof.
  unfold repair_lb. destruct var as [[l|] [u|] [v|]]; cbn; try reflexivity;
    destruct (Qltb _ _); reflexivity.
Qed.

Lemma ub_repair_lb var : ub (repair_lb var) = ub var.
Proof.
  unfold repair_lb. destruct var as [[l|] [u|] [v|]]; cbn; try reflexivity;
    destruct (Qltb _ _); reflexivity.
Qed.

Lemma lb_repair_ub var : lb (repair_ub var) = lb var.
Proof.
  unfold repair_ub. destruct var as [[l|] [u|] [v|]]; cbn; try reflexivity;
    destruct (Qltb _ _); reflexivity.
Qed.

Lemma ub_repair_ub var : ub (repair_ub var) = ub var.
Proof.
  unfold repair_ub. destruct var as [[l|] [u|] [v|]]; cbn; try reflexivity;
    destruct (Qltb _ _); reflexivity.
Qed.

Lemma lb_folded (constr : ConstraintData Expr) const coef var :
  lb (folded isclose constr const coef var) =
  tighten_lb (lb var) (implied_lb isclose constr const coef).
Proof. unfold folded. now rewrite lb_repair_ub, lb_repair_lb. Qed.

Lemma ub_folded (constr : ConstraintData Expr) const coef var :
  ub (folded isclose constr const coef var) =
  tighten_ub (ub var) (implied_ub isclose constr const coef).
Proof. unfold folded. now rewrite ub_repair_ub, ub_repair_lb. Qed.

(** C1.  When the loop visits an active constraint whose body is
    [coef * var + const] with [coef] not close to zero, the visit succeeds,
    the loop goes on from the store it leaves, and in that store: an upper
    bound [U] of the constraint has set the upper bound of [var] to
    [min (ub, (U - const) / coef)] when [coef > 0] and its lower bound to
    [max (lb, (U - const) / coef)] when [coef < 0]; a lower bound [L] has
    set the lower bound to [max (lb, (L - const) / coef)] when [coef > 0]
    and the upper bound to [min (ub, (L - const) / coef)] when [coef < 0];
    a bound that was not set is replaced by the new bound itself. *)
Theorem visit_sets_implied_bounds vs (constr : ConstraintData Expr) var coef :
  active constr = true ->
  is_linear (repn_of constr) = true ->
  linear_terms (repn_of constr) = [(var, coef)] ->
  isclose coef 0 = false ->
  let const := constant (repn_of constr) in
  exists vs1,
    visit generate_standard_repn isclose vs constr = Ok (vs1, deactivate constr) /\
    (forall rest,
       loop generate_standard_repn isclose vs (constr :: rest) =
       '(vs2, rest1) ← loop generate_standard_repn isclose vs1 rest;
       Ok (vs2, deactivate constr :: rest1)) /\
    (forall U, upper constr = Some U -> 0 < coef ->
       ub (vs1 var) =
       Some (match ub (vs var) with
             | Some u => pymin u ((U - const) / coef)
             | None => (U - const) / coef
             end)) /\
    (forall U, upper constr = Some U -> coef < 0 ->
       lb (vs1 var) =
       Some (match lb (vs var) with
             | Some l => pymax l ((U - const) / coef)
             | None => (U - const) / coef
             end)) /\
    (forall L, lower constr = Some L -> 0 < coef ->
       lb (vs1 var) =
       Some (match lb (vs var) with
             | Some l => pymax l ((L - const) / coef)
             | None => (L - const) / coef
             end)) /\
    (forall L, lower constr = Some L -> coef < 0 ->
       ub (vs1 var) =
       Some (match ub (vs var) with
             | Some u => pymin u ((L - const) / coef)
             | None => (L - const) / coef
             end)).
Proof.
  intros Hact Hlin Hterms Hclose const.
  assert (Hsv : single_var generate_standard_repn constr = Some (var, coef))
    by (apply single_var_Some; auto).
  pose proof (visit_single_var _ _ isclose_zero vs constr var coef Hsv) as Hvisit.
  eexists. split; [exact Hvisit|]. split.
  { intros rest. cbn [loop]. rewrite Hact, Hvisit. reflexivity. }
  rewrite store_lookup_insert, lb_folded, ub_folded.
  unfold implied_lb, implied_ub. rewrite Hclose. fold const.
  repeat split.
  - intros U HU Hpos. apply Qltb_lt in Hpos as Hp. rewrite Hp, HU. reflexivity.
  - intros U HU Hneg. apply Qltb_lt in Hneg as Hn.
    assert (Hp : Qltb 0 coef = false) by (apply Qltb_ge; lra).
    rewrite Hp, Hn, HU. reflexivity.
  - intros L HL Hpos. apply Qltb_lt in Hpos as Hp. rewrite Hp, HL. reflexivity.
  - intros L HL Hneg. apply Qltb_lt in Hneg as Hn.
    assert (Hp : Qltb 0 coef = false) by (apply Qltb_ge; lra).
    rewrite Hp, Hn, HL. reflexivity.
Qed.

End BoundDerivation.

(** Scenario 1 of the spec: [2*x + 1 <= 5] with no bound on [x]. *)
Lemma visit_sets_implied_bounds_witness :
  exists vs1,
    visit repn_id (isclose_abs epsilon) free_store two_x_plus_one_le_five =
    Ok (vs1, deactivate two_x_plus_one_le_five) /\
    ub (vs1 x) = Some ((5 - 1) / 2).
Proof.
  destruct (visit_sets_implied_bounds repn_id (isclose_abs epsilon)
              isclose_epsilon_zero free_store two_x_plus_one_le_five x 2
              eq_refl eq_refl eq_refl eq_refl)
    as (vs1 & Hvisit & _ & Hub & _).
  exists vs1. split; [exact Hvisit|].
  exact (Hub 5 eq_refl eq_refl).
Defined.

(** ** The whole loop *)

Section LoopFacts.

Context {Expr : Type}.
Variable generate_standard_repn : Expr -> StandardRepn.
Variable isclose : Q -> Q -> bool.
Hypothesis isclose_zero : forall c, c == 0 -> isclose c 0 = true.

Local Abbreviation loop' := (loop generate_standard_repn isclose).
Local Abbreviation visited_store' := (visited_store generate_standard_repn isclose).
Local Abbreviation visited_constr' := (visited_constr generate_standard_repn).
Local Abbreviation run_store' := (run_store generate_standard_repn isclose).
Local Abbreviation single_var' := (single_var generate_standard_repn).

Lemma loop_cons vs (constr : ConstraintData Expr) rest :
  loop' vs (constr :: rest) =
  '(vs2, rest1) ← loop' (visited_store' vs constr) rest;
  Ok (vs2, visited_constr' constr :: rest1).
Proof.
  cbn [loop]. unfold visited_store, visited_constr.
  destruct (active constr); [|reflexivity].
  destruct (single_var' constr) as [[var coef]|] eqn:Hsv.
  - rewrite (visit_single_var _ _ isclose_zero vs constr var coef Hsv).
    reflexivity.
  - rewrite (visit_not_single_var _ _ vs constr Hsv). reflexivity.
Qed.

(** The loop never raises: it returns the store and the constraints that
    the visits leave one after the other. *)
Lemma loop_run (cs : list (ConstraintData Expr)) vs :
  loop' vs cs = Ok (run_store' vs cs, map visited_constr' cs).
Proof.
  revert vs. induction cs as [|constr rest IH]; intros vs.
  - reflexivity.
  - rewrite loop_cons, IH. reflexivity.
Qed.

Lemma apply_to_run (m : Model Expr) :
  _apply_to generate_standard_repn isclose m =
  Ok {| vars := run_store' (vars m) (constraints m);
        constraints := map visited_constr' (constraints m) |}.
Proof. unfold _apply_to. rewrite loop_run. reflexivity. Qed.

End LoopFacts.

(** ** C2: bounds are never loosened *)

Lemma lb_no_looser_refl (a : option Q) : lb_no_looser a a.
Proof. destruct a; cbn; [lra | exact I]. Qed.

Lemma ub_no_looser_refl (a : option Q) : ub_no_looser a a.
Proof. destruct a; cbn; [lra | exact I]. Qed.

Lemma lb_no_looser_trans (a b c : option Q) :
  lb_no_looser a b -> lb_no_looser b c -> lb_no_looser a c.
Proof. destruct a, b, c; cbn; try tauto; lra. Qed.

Lemma ub_no_looser_trans (a b c : option Q) :
  ub_no_looser a b -> ub_no_looser b c -> ub_no_looser a c.
Proof. destruct a, b, c; cbn; try tauto; lra. Qed.

Lemma tighten_lb_no_looser (old newbound : option Q) :
  lb_no_looser old (tighten_lb old newbound).
Proof.
  destruct old as [l|], newbound as [b|]; cbn; try exact I; try lra.
  apply pymax_ge_l.
Qed.

Lemma tighten_ub_no_looser (old newbound : option Q) :
  ub_no_looser old (tighten_ub old newbound).
Proof.
  destruct old as [u|], newbound as [b|]; cbn; try exact I; try lra.
  apply pymin_le_l.
Qed.

Section Monotone.

Context {Expr : Type}.
Variable generate_standard_repn : Expr -> StandardRepn.
Variable isclose : Q -> Q -> bool.
Hypothesis isclose_zero : forall c, c == 0 -> isclose c 0 = true.

Local Abbreviation visited_store' := (visited_store generate_standard_repn isclose).
Local Abbreviation run_store' := (run_store generate_standard_repn isclose).

Lemma visited_store_no_looser vs (constr : ConstraintData Expr) var :
  lb_no_looser (lb (vs var)) (lb (visited_store' vs constr var)) /\
  ub_no_looser (ub (vs var)) (ub (visited_store' vs constr var)).
Proof.
  unfold visited_store.
  destruct (active constr);
    [|split; [apply lb_no_looser_refl | apply ub_no_looser_refl]].
  destruct (single_var _ constr) as [[v coef]|];
    [|split; [apply lb_no_looser_refl | apply ub_no_looser_refl]].
  cbv zeta. destruct (decide (v = var)) as [->|Hne].
  - rewrite store_lookup_insert, lb_folded, ub_folded.
    split; [apply tighten_lb_no_looser | apply tighten_ub_no_looser].
  - rewrite store_lookup_insert_ne by assumption.
    split; [apply lb_no_looser_refl | apply ub_no_looser_refl].
Qed.

Lemma run_store_no_looser (cs : list (ConstraintData Expr)) vs var :
  lb_no_looser (lb (vs var)) (lb (run_store' vs cs var)) /\
  ub_no_looser (ub (vs var)) (ub (run_store' vs cs var)).
Proof.
  revert vs. induction cs as [|constr rest IH]; intros vs.
  - split; [apply lb_no_looser_refl | apply ub_no_looser_refl].
  - cbn. destruct (visited_store_no_looser vs constr var) as [Hl Hu].
    destruct (IH (visited_store' vs constr)) as [Hl' Hu'].
    split; [eapply lb_no_looser_trans | eapply ub_no_looser_trans]; eassumption.
Qed.

(** C2.  The transformation returns, and for every variable of the model the
    lower bound after it is no looser than the lower bound before it and the
    upper bound after it is no looser than the upper bound before it: a bound
    that was set is still set, a lower bound has not decreased and an upper
    bound has not increased. *)
Theorem apply_to_never_loosens (m : Model Expr) :
  exists m',
    _apply_to generate_standard_repn isclose m = Ok m' /\
    forall var,
      lb_no_looser (lb (vars m var)) (lb (vars m' var)) /\
      ub_no_looser (ub (vars m var)) (ub (vars m' var)).
Proof.
  eexists. split.
  - apply apply_to_run, isclose_zero.
  - intros var. cbn [vars]. apply run_store_no_looser.
Qed.

End Monotone.

Lemma apply_to_never_loosens_witness :
  exists m',
    _apply_to repn_id (isclose_abs epsilon) scenarios = Ok m' /\
    forall var,
      lb_no_looser (lb (vars scenarios var)) (lb (vars m' var)) /\
      ub_no_looser (ub (vars scenarios var)) (ub (vars m' var)).
Proof.
  exact (apply_to_never_loosens repn_id (isclose_abs epsilon)
           isclose_epsilon_zero scenarios).
Defined.

(** ** C3: single-variable linear constraints are deactivated *)

Section Deactivation.

Context {Expr : Type}.
Variable generate_standard_repn : Expr -> StandardRepn.
Variable isclose : Q -> Q -> bool.
Hypothesis isclose_zero : forall c, c == 0 -> isclose c 0 = true.

Local Abbreviation repn_of constr := (generate_standard_repn (body constr)).

(** C3.  The transformation returns, and every constraint that was active
    and whose body is linear with exactly one variable is, at the same place
    in the model, the same constraint deactivated; nothing is asked of its
    coefficient, so this includes a coefficient close to zero. *)
Theorem apply_to_deactivates (m : Model Expr) :
  exists m',
    _apply_to generate_standard_repn isclose m = Ok m' /\
    forall (i : nat) (constr : ConstraintData Expr),
      constraints m !! i = Some constr ->
      active constr = true ->
      is_linear (repn_of constr) = true ->
      length (linear_vars (repn_of constr)) = 1%nat ->
      constraints m' !! i = Some (deactivate constr) /\
      active (deactivate constr) = false.
Proof.
  eexists. split.
  - apply apply_to_run, isclose_zero.
  - intros i constr Hi Hact Hlin Hlen. cbn [constraints]. split; [|reflexivity].
    rewrite list_lookup_fmap, Hi. cbn. f_equal.
    unfold visited_constr. rewrite Hact.
    destruct (single_var_length _ constr Hlin Hlen) as (var & coef & ->).
    reflexivity.
Qed.

End Deactivation.

Lemma apply_to_deactivates_witness :
  exists m',
    _apply_to repn_id (isclose_abs epsilon) scenarios = Ok m' /\
    forall (i : nat) (constr : ConstraintData StandardRepn),
      constraints scenarios !! i = Some constr ->
      active constr = true ->
      is_linear (repn_id (body constr)) = true ->
      length (linear_vars (repn_id (body constr))) = 1%nat ->
      constraints m' !! i = Some (deactivate constr) /\
      active (deactivate constr) = false.
Proof.
  exact (apply_to_deactivates repn_id (isclose_abs epsilon)
           isclose_epsilon_zero scenarios).
Defined.

(** ** C8: a second run changes nothing *)

Section Idempotence.

Context {Expr : Type}.
Variable generate_standard_repn : Expr -> StandardRepn.
Variable isclose : Q -> Q -> bool.
Hypothesis isclose_zero : forall c, c == 0 -> isclose c 0 = true.

Local Abbreviation visited_store' := (visited_store generate_standard_repn isclose).
Local Abbreviation visited_constr' := (visited_constr generate_standard_repn).
Local Abbreviation run_store' := (run_store generate_standard_repn isclose).

Lemma single_var_deactivate (constr : ConstraintData Expr) :
  single_var generate_standard_repn (deactivate constr) =
  single_var generate_standard_repn constr.
Proof. reflexivity. Qed.

(** A constraint that has had its turn is no longer visited. *)
Lemma visited_constr_done (constr : ConstraintData Expr) :
  active (visited_constr' constr) = false \/
  single_var generate_standard_repn (visited_constr' constr) = None.
Proof.
  unfold visited_constr. destruct (active constr) eqn:Hact; [|auto].
  destruct (single_var _ constr) eqn:Hsv; [left; reflexivity | right; assumption].
Qed.

Lemma visited_store_done vs (constr : ConstraintData Expr) :
  visited_store' vs (visited_constr' constr) = vs.
Proof.
  unfold visited_store at 1.
  destruct (visited_constr_done constr) as [-> | ->];
    [reflexivity | destruct (active _); reflexivity].
Qed.

Lemma visited_constr_idem (constr : ConstraintData Expr) :
  visited_constr' (visited_constr' constr) = visited_constr' constr.
Proof.
  unfold visited_constr at 1.
  destruct (visited_constr_done constr) as [-> | ->];
    [reflexivity | destruct (active _); reflexivity].
Qed.

Lemma run_store_done (cs : list (ConstraintData Expr)) vs :
  run_store' vs (map visited_constr' cs) = vs.
Proof.
  induction cs as [|constr rest IH]; [reflexivity|].
  cbn. rewrite visited_store_done. exact IH.
Qed.

(** C8.  The transformation returns, and applied to the model it returns it
    gives that model back: the same variable bounds and values and the same
    constraints with the same active flags.  The second run finds every
    constraint that the first run folded inactive. *)
Theorem apply_to_idempotent (m : Model Expr) :
  exists m',
    _apply_to generate_standard_repn isclose m = Ok m' /\
    _apply_to generate_standard_repn isclose m' = Ok m'.
Proof.
  eexists. split.
  - apply apply_to_run, isclose_zero.
  - rewrite apply_to_run by exact isclose_zero. cbn [vars constraints].
    rewrite run_store_done. f_equal. f_equal.
    rewrite map_map. apply map_ext. intros constr. apply visited_constr_idem.
Qed.

End Idempotence.

Lemma apply_to_idempotent_witness :
  exists m',
    _apply_to repn_id (isclose_abs epsilon) scenarios = Ok m' /\
    _apply_to repn_id (isclose_abs epsilon) m' = Ok m'.
Proof.
  exact (apply_to_idempotent repn_id (isclose_abs epsilon)
           isclose_epsilon_zero scenarios).
Defined.

(** ** C9: the order of the constraints *)

Lemma bound_eq_refl (a : option Q) : bound_eq a a.
Proof. destruct a; cbn; [reflexivity | exact I]. Qed.

Lemma bound_eq_trans (a b c : option Q) :
  bound_eq a b -> bound_eq b c -> bound_eq a c.
Proof. destruct a, b, c; cbn; try tauto. intros -> ->. reflexivity. Qed.

Lemma pymax_compat (l l' b : Q) : l == l' -> pymax l b == pymax l' b.
Proof.
  intros H. destruct (pymax_cases l b) as [[? ->]|[? ->]],
    (pymax_cases l' b) as [[? ->]|[? ->]]; lra.
Qed.

Lemma pymin_compat (u u' b : Q) : u == u' -> pymin u b == pymin u' b.
Proof.
  intros H. destruct (pymin_cases u b) as [[? ->]|[? ->]],
    (pymin_cases u' b) as [[? ->]|[? ->]]; lra.
Qed.

Lemma pymax_comm (a b : Q) : pymax a b == pymax b a.
Proof.
  destruct (pymax_cases a b) as [[? ->]|[? ->]],
    (pymax_cases b a) as [[? ->]|[? ->]]; lra.
Qed.

Lemma pymin_comm (a b : Q) : pymin a b == pymin b a.
Proof.
  destruct (pymin_cases a b) as [[? ->]|[? ->]],
    (pymin_cases b a) as [[? ->]|[? ->]]; lra.
Qed.

Lemma pymax_swap (l a b : Q) : pymax (pymax l a) b == pymax (pymax l b) a.
Proof.
  destruct (pymax_cases l a) as [[? ->]|[? ->]],
    (pymax_cases l b) as [[? ->]|[? ->]];
  try (destruct (pymax_cases a b) as [[? ->]|[? ->]]);
  try (destruct (pymax_cases b a) as [[? ->]|[? ->]]);
  try (destruct (pymax_cases l a) as [[? ->]|[? ->]]);
  try (destruct (pymax_cases l b) as [[? ->]|[? ->]]); lra.
Qed.

Lemma pymin_swap (u a b : Q) : pymin (pymin u a) b == pymin (pymin u b) a.
Proof.
  destruct (pymin_cases u a) as [[? ->]|[? ->]],
    (pymin_cases u b) as [[? ->]|[? ->]];
  try (destruct (pymin_cases a b) as [[? ->]|[? ->]]);
  try (destruct (pymin_cases b a) as [[? ->]|[? ->]]);
  try (destruct (pymin_cases u a) as [[? ->]|[? ->]]);
  try (destruct (pymin_cases u b) as [[? ->]|[? ->]]); lra.
Qed.

Lemma tighten_lb_compat (a a' newbound : option Q) :
  bound_eq a a' -> bound_eq (tighten_lb a newbound) (tighten_lb a' newbound).
Proof.
  destruct a, a', newbound; cbn; try tauto; try reflexivity.
  apply pymax_compat.
Qed.

Lemma tighten_ub_compat (a a' newbound : option Q) :
  bound_eq a a' -> bound_eq (tighten_ub a newbound) (tighten_ub a' newbound).
Proof.
  destruct a, a', newbound; cbn; try tauto; try reflexivity.
  apply pymin_compat.
Qed.

Lemma tighten_lb_swap (a n1 n2 : option Q) :
  bound_eq (tighten_lb (tighten_lb a n1) n2) (tighten_lb (tighten_lb a n2) n1).
Proof.
  destruct a, n1, n2; cbn; try reflexivity.
  - apply pymax_swap.
  - apply pymax_comm.
Qed.

Lemma tighten_ub_swap (a n1 n2 : option Q) :
  bound_eq (tighten_ub (tighten_ub a n1) n2) (tighten_ub (tighten_ub a n2) n1).
Proof.
  destruct a, n1, n2; cbn; try reflexivity.
  - apply pymin_swap.
  - apply pymin_comm.
Qed.

Lemma same_bounds_refl (vs : VarStore) : same_bounds vs vs.
Proof. intros var. split; apply bound_eq_refl. Qed.

Lemma same_bounds_trans (vs1 vs2 vs3 : VarStore) :
  same_bounds vs1 vs2 -> same_bounds vs2 vs3 -> same_bounds vs1 vs3.
Proof.
  intros H12 H23 var. destruct (H12 var), (H23 var).
  split; eapply bound_eq_trans; eassumption.
Qed.

Section Order.

Context {Expr : Type}.
Variable generate_standard_repn : Expr -> StandardRepn.
Variable isclose : Q -> Q -> bool.
Hypothesis isclose_zero : forall c, c == 0 -> isclose c 0 = true.

Local Abbreviation visited_store' := (visited_store generate_standard_repn isclose).
Local Abbreviation run_store' := (run_store generate_standard_repn isclose).
Local Abbreviation brought_lb' := (brought_lb generate_standard_repn isclose).
Local Abbreviation brought_ub' := (brought_ub generate_standard_repn isclose).

(** The bounds a visit leaves depend on the bounds it finds only. *)
Lemma visited_store_bounds vs (constr : ConstraintData Expr) var :
  lb (visited_store' vs constr var) =
    tighten_lb (lb (vs var)) (brought_lb' constr var) /\
  ub (visited_store' vs constr var) =
    tighten_ub (ub (vs var)) (brought_ub' constr var).
Proof.
  unfold visited_store, brought_lb, brought_ub.
  destruct (active constr); [|split; reflexivity].
  destruct (single_var _ constr) as [[v coef]|]; [|split; reflexivity].
  cbv zeta. destruct (decide (v = var)) as [->|Hne].
  - rewrite store_lookup_insert, lb_folded, ub_folded. split; reflexivity.
  - rewrite store_lookup_insert_ne by assumption. split; reflexivity.
Qed.

Lemma visited_store_compat vs vs' (constr : ConstraintData Expr) :
  same_bounds vs vs' ->
  same_bounds (visited_store' vs constr) (visited_store' vs' constr).
Proof.
  intros H var. destruct (H var) as [Hl Hu].
  destruct (visited_store_bounds vs constr var) as [-> ->].
  destruct (visited_store_bounds vs' constr var) as [-> ->].
  split; [apply tighten_lb_compat | apply tighten_ub_compat]; assumption.
Qed.

Lemma visited_store_swap vs (c1 c2 : ConstraintData Expr) :
  same_bounds (visited_store' (visited_store' vs c1) c2)
              (visited_store' (visited_store' vs c2) c1).
Proof.
  intros var.
  destruct (visited_store_bounds (visited_store' vs c1) c2 var) as [-> ->].
  destruct (visited_store_bounds (visited_store' vs c2) c1 var) as [-> ->].
  destruct (visited_store_bounds vs c1 var) as [-> ->].
  destruct (visited_store_bounds vs c2 var) as [-> ->].
  split; [apply tighten_lb_swap | apply tighten_ub_swap].
Qed.

Lemma run_store_compat (cs : list (ConstraintData Expr)) vs vs' :
  same_bounds vs vs' -> same_bounds (run_store' vs cs) (run_store' vs' cs).
Proof.
  revert vs vs'. induction cs as [|constr rest IH]; intros vs vs' H.
  - exact H.
  - cbn. apply IH, visited_store_compat, H.
Qed.

Lemma run_store_Permutation (cs1 cs2 : list (ConstraintData Expr)) :
  Permutation cs1 cs2 ->
  forall vs, same_bounds (run_store' vs cs1) (run_store' vs cs2).
Proof.
  induction 1 as [|c l l' _ IH|c1 c2 l|l1 l2 l3 _ IH12 _ IH23]; intros vs.
  - apply same_bounds_refl.
  - cbn. apply IH.
  - cbn. apply run_store_compat, visited_store_swap.
  - eapply same_bounds_trans; [apply IH12 | apply IH23].
Qed.

(** C9.  Take the same variables and the same constraints in two orders.
    The transformation returns on both, and the two models it returns give
    every variable numerically equal lower bounds and numerically equal
    upper bounds (set in both with equal numbers, or set in neither). *)
Theorem apply_to_order_independent (vs : VarStore)
    (cs1 cs2 : list (ConstraintData Expr)) :
  Permutation cs1 cs2 ->
  exists m1 m2,
    _apply_to generate_standard_repn isclose
      {| vars := vs; constraints := cs1 |} = Ok m1 /\
    _apply_to generate_standard_repn isclose
      {| vars := vs; constraints := cs2 |} = Ok m2 /\
    same_bounds (vars m1) (vars m2).
Proof.
  intros Hperm. do 2 eexists. split; [|split].
  - apply apply_to_run, isclose_zero.
  - apply apply_to_run, isclose_zero.
  - cbn [vars constraints]. apply run_store_Permutation, Hperm.
Qed.

End Order.

(** [x <= 3] before [4 <= x], and [4 <= x] before [x <= 3]. *)
Lemma apply_to_order_independent_witness :
  exists m1 m2,
    _apply_to repn_id (isclose_abs epsilon)
      {| vars := x_at_three; constraints := [x_le_three; four_le_x] |} = Ok m1 /\
    _apply_to repn_id (isclose_abs epsilon)
      {| vars := x_at_three; constraints := [four_le_x; x_le_three] |} = Ok m2 /\
    same_bounds (vars m1) (vars m2).
Proof.
  apply (apply_to_order_independent repn_id (isclose_abs epsilon)
           isclose_epsilon_zero x_at_three
           [x_le_three; four_le_x] [four_le_x; x_le_three]).
  apply perm_swap.
Defined.

(** ** C5: constraints the loop passes over *)

Section Frame.

Context {Expr : Type}.
Variable generate_standard_repn : Expr -> StandardRepn.
Variable isclose : Q -> Q -> bool.

Local Abbreviation repn_of constr := (generate_standard_repn (body constr)).
Local Abbreviation visit' := (visit generate_standard_repn isclose).
Local Abbreviation loop' := (loop generate_standard_repn isclose).

Lemma loop_cons_unchanged vs (constr : ConstraintData Expr) rest :
  visit' vs constr = Ok (vs, constr) ->
  loop' vs (constr :: rest) =
  match loop' vs rest with
  | Ok (vs', cs') => Ok (vs', constr :: cs')
  | Raise e => Raise e
  end.
Proof.
  intros Hvisit. cbn [loop]. rewrite Hvisit.
  destruct (active constr); cbn; destruct (loop' vs rest) as [[vs' cs']|e];
    reflexivity.
Qed.

(** C5.  A constraint whose body is not linear, or is linear with two or
    more variables, is passed over.  A visit returns the store and the
    constraint as they are.  In the loop, with any constraints before and
    after it, the result is the result of the loop without this constraint,
    with the constraint put back at its place as it was: so it is still
    active if it was, its bounds are the same, and no variable has another
    bound or value than it would have without the constraint. *)
Theorem other_constraints_untouched (constr : ConstraintData Expr) :
  is_linear (repn_of constr) = false \/
  (2 <= length (linear_vars (repn_of constr)))%nat ->
  (forall vs, visit' vs constr = Ok (vs, constr)) /\
  (forall vs before after,
     loop' vs (before ++ constr :: after) =
     match loop' vs (before ++ after) with
     | Ok (vs', cs') =>
         Ok (vs', take (length before) cs' ++ constr :: drop (length before) cs')
     | Raise e => Raise e
     end).
Proof.
  intros Hshape.
  assert (Hvisit : forall vs, visit' vs constr = Ok (vs, constr)).
  { intros vs. apply visit_not_single_var, single_var_None.
    destruct Hshape as [H|H]; [left; exact H | right; lia]. }
  split; [exact Hvisit|].
  intros vs before after. revert vs.
  induction before as [|c0 before IH]; intros vs.
  - cbn [app length]. rewrite loop_cons_unchanged by apply Hvisit.
    destruct (loop' vs after) as [[vs' cs']|e]; reflexivity.
  - cbn [app length loop].
    destruct (if active c0 then visit' vs c0 else Ok (vs, c0)) as [[vs1 c1]|e];
      [|reflexivity].
    cbn. rewrite IH.
    destruct (loop' vs1 (before ++ after)) as [[vs' cs']|e]; reflexivity.
Qed.

End Frame.

(** Scenario 6 of the spec: [x + y <= 4] is passed over. *)
Lemma other_constraints_untouched_witness :
  (forall vs,
     visit repn_id (isclose_abs epsilon) vs x_plus_y_le_four =
     Ok (vs, x_plus_y_le_four)) /\
  (forall vs before after,
     loop repn_id (isclose_abs epsilon) vs (before ++ x_plus_y_le_four :: after) =
     match loop repn_id (isclose_abs epsilon) vs (before ++ after) with
     | Ok (vs', cs') =>
         Ok (vs', take (length before) cs' ++
                  x_plus_y_le_four :: drop (length before) cs')
     | Raise e => Raise e
     end).
Proof.
  apply (other_constraints_untouched repn_id (isclose_abs epsilon)
           x_plus_y_le_four).
  right. cbn. lia.
Defined.

(** ** C10: the value is repaired after every visit *)

Section Repair.

Context {Expr : Type}.
Variable generate_standard_repn : Expr -> StandardRepn.
Variable isclose : Q -> Q -> bool.

Local Abbreviation repn_of constr := (generate_standard_repn (body constr)).
Local Abbreviation visit' := (visit generate_standard_repn isclose).

Lemma repair_lb_below var l v :
  lb var = Some l -> value var = Some v -> v < l ->
  repair_lb var = set_value var l.
Proof.
  intros Hl Hv Hlt. unfold repair_lb. rewrite Hl, Hv.
  apply Qltb_lt in Hlt. now rewrite Hlt.
Qed.

Lemma repair_ub_above var u v :
  ub var = Some u -> value var = Some v -> u < v ->
  repair_ub var = set_value var u.
Proof.
  intros Hu Hv Hlt. unfold repair_ub. rewrite Hu, Hv.
  apply Qltb_lt in Hlt. now rewrite Hlt.
Qed.

Lemma repair_ub_within var u v :
  ub var = Some u -> value var = Some v -> v <= u -> repair_ub var = var.
Proof.
  intros Hu Hv Hle. unfold repair_ub. rewrite Hu, Hv.
  apply Qltb_ge in Hle. now rewrite Hle.
Qed.

Lemma repair_ub_unbounded var : ub var = None -> repair_ub var = var.
Proof. intros Hu. unfold repair_ub. now rewrite Hu. Qed.

Lemma repair_lb_value var :
  value (repair_lb var) = value var \/
  (exists l v, lb var = Some l /\ value var = Some v /\ v < l /\
               value (repair_lb var) = Some l).
Proof.
  unfold repair_lb. destruct var as [[l|] u [v|]]; cbn; auto.
  destruct (Qltb v l) eqn:E; cbn; auto.
  right. exists l, v. apply Qltb_lt in E. auto.
Qed.

(** The visit of a constraint whose coefficient is close to zero goes
    straight from line 53 to lines 78-91. *)
Lemma visit_close_to_zero vs (constr : ConstraintData Expr) var coef :
  is_linear (repn_of constr) = true ->
  linear_terms (repn_of constr) = [(var, coef)] ->
  isclose coef 0 = true ->
  visit' vs constr =
  Ok (<[var := repair_ub (repair_lb (vs var))]> vs, deactivate constr).
Proof.
  intros Hlin Hterms Hclose.
  unfold visit, derive_bounds. rewrite Hlin, Hterms, Hclose. reflexivity.
Qed.

Lemma repair_keeps_bounds (vs : VarStore) var other :
  lb ((<[var := repair_ub (repair_lb (vs var))]> vs) other) = lb (vs other) /\
  ub ((<[var := repair_ub (repair_lb (vs var))]> vs) other) = ub (vs other).
Proof.
  destruct (decide (var = other)) as [<-|Hne].
  - rewrite store_lookup_insert, lb_repair_ub, lb_repair_lb,
      ub_repair_ub, ub_repair_lb. auto.
  - rewrite store_lookup_insert_ne by assumption. auto.
Qed.

(** C10.  The visit of a constraint whose body is [coef * var + const] with
    [coef] close to zero succeeds and deactivates the constraint; it changes
    no bound of any variable and nothing of any other variable, and it
    leaves [var] as lines 86-91 repair it.  A value below the lower bound is
    reset to the lower bound by lines 86-88, and that is the value the visit
    leaves unless the lower bound is above the upper bound, in which case
    lines 89-91 reset it again, to the upper bound.  A value above the upper
    bound is reset to the upper bound. *)
Theorem visit_degenerate_repairs_value vs (constr : ConstraintData Expr)
    var coef :
  is_linear (repn_of constr) = true ->
  linear_terms (repn_of constr) = [(var, coef)] ->
  isclose coef 0 = true ->
  exists vs1,
    visit' vs constr = Ok (vs1, deactivate constr) /\
    (forall other, lb (vs1 other) = lb (vs other) /\
                   ub (vs1 other) = ub (vs other)) /\
    (forall other, other <> var -> vs1 other = vs other) /\
    vs1 var = repair_ub (repair_lb (vs var)) /\
    (forall l v,
       lb (vs var) = Some l -> value (vs var) = Some v -> v < l ->
       value (repair_lb (vs var)) = Some l /\
       (bounds_consistent (vs var) -> value (vs1 var) = Some l) /\
       (forall u, ub (vs var) = Some u -> u < l -> value (vs1 var) = Some u)) /\
    (forall u v,
       ub (vs var) = Some u -> value (vs var) = Some v -> u < v ->
       value (vs1 var) = Some u).
Proof.
  intros Hlin Hterms Hclose.
  exists (<[var := repair_ub (repair_lb (vs var))]> vs).
  split; [apply (visit_close_to_zero vs constr var coef); assumption|].
  split; [|split; [|split; [|split]]].
  - intros other. apply repair_keeps_bounds.
  - intros other Hne. apply store_lookup_insert_ne. congruence.
  - apply store_lookup_insert.
  - intros l v Hl Hv Hlt. rewrite store_lookup_insert.
    rewrite (repair_lb_below _ l v Hl Hv Hlt).
    split; [reflexivity|]. split.
    + unfold bounds_consistent. rewrite Hl.
      destruct (ub (vs var)) as [u|] eqn:Hu.
      * intros Hle. now rewrite (repair_ub_within _ u l).
      * intros _. now rewrite repair_ub_unbounded.
    + intros u Hu Hcross. now rewrite (repair_ub_above _ u l).
  - intros u v Hu Hv Hlt. rewrite store_lookup_insert.
    destruct (repair_lb_value (vs var)) as [Hsame | (l & v' & Hl & Hv' & Hlow & Hnew)].
    + rewrite (repair_ub_above _ u v); [reflexivity| |congruence|assumption].
      now rewrite ub_repair_lb.
    + assert (v' = v) as -> by congruence.
      rewrite (repair_ub_above _ u l); [reflexivity| |assumption|lra].
      now rewrite ub_repair_lb.
Qed.

End Repair.

(** [0*x + 5 <= 10] with [x] at 0 under its lower bound 1. *)
Lemma visit_degenerate_repairs_value_witness :
  exists vs1,
    visit repn_id (isclose_abs epsilon) x_under_its_lb zero_x_plus_five_le_ten =
      Ok (vs1, deactivate zero_x_plus_five_le_ten) /\
    value (vs1 x) = Some 1.
Proof.
  destruct (visit_degenerate_repairs_value repn_id (isclose_abs epsilon)
              x_under_its_lb zero_x_plus_five_le_ten x 0
              eq_refl eq_refl eq_refl)
    as (vs1 & Hvisit & _ & _ & _ & Hlow & _).
  exists vs1. split; [exact Hvisit|].
  destruct (Hlow 1 0 eq_refl eq_refl eq_refl) as (_ & Hvalue & _).
  apply Hvalue. exact I.
Defined.

(** ** C6: values and bounds after the transformation *)

Lemma repair_repaired (var : VarData) : repaired (repair_ub (repair_lb var)).
Proof.
  unfold repaired, value_le_ub, lb_le_value, bounds_consistent,
    repair_ub, repair_lb.
  destruct var as [[l|] [u|] [v|]]; cbn; auto.
  - destruct (Qltb v l) eqn:E1; cbn.
    + destruct (Qltb u l) eqn:E2; cbn.
      * apply Qltb_lt in E2. split; [lra | intros; lra].
      * apply Qltb_ge in E2. split; [lra | intros; lra].
    + apply Qltb_ge in E1. destruct (Qltb u v) eqn:E2; cbn.
      * apply Qltb_lt in E2. split; [lra | intros; lra].
      * apply Qltb_ge in E2. split; [lra | intros; lra].
  - destruct (Qltb v l) eqn:E1; cbn.
    + split; [exact I | intros; lra].
    + apply Qltb_ge in E1. auto.
  - destruct (Qltb u v) eqn:E2; cbn.
    + split; [lra | auto].
    + apply Qltb_ge in E2. auto.
Qed.

Section Feasibility.

Context {Expr : Type}.
Variable generate_standard_repn : Expr -> StandardRepn.
Variable isclose : Q -> Q -> bool.
Hypothesis isclose_zero : forall c, c == 0 -> isclose c 0 = true.

Local Abbreviation visited_store' := (visited_store generate_standard_repn isclose).
Local Abbreviation run_store' := (run_store generate_standard_repn isclose).
Local Abbreviation visited_var' := (visited_var generate_standard_repn).

(** After a visit, the variable is repaired if the visit was about it or if
    it was repaired before. *)
Lemma visited_store_repaired vs (constr : ConstraintData Expr) rest var :
  repaired (vs var) \/ visited_var' (constr :: rest) var ->
  repaired (visited_store' vs constr var) \/ visited_var' rest var.
Proof.
  intros H. unfold visited_store.
  destruct (active constr) eqn:Hact.
  - destruct (single_var _ constr) as [[v coef]|] eqn:Hsv.
    + cbv zeta. destruct (decide (v = var)) as [->|Hne].
      * left. rewrite store_lookup_insert. apply repair_repaired.
      * rewrite store_lookup_insert_ne by assumption.
        destruct H as [H|(c & k & [<-|Hin] & Hc & Hk)]; [auto| |].
        -- congruence.
        -- right. exists c, k. auto.
    + destruct H as [H|(c & k & [<-|Hin] & Hc & Hk)]; [auto| |].
      * congruence.
      * right. exists c, k. auto.
  - destruct H as [H|(c & k & [<-|Hin] & Hc & Hk)]; [auto| |].
    + congruence.
    + right. exists c, k. auto.
Qed.

Lemma run_store_repaired (cs : list (ConstraintData Expr)) vs var :
  repaired (vs var) \/ visited_var' cs var ->
  repaired (run_store' vs cs var).
Proof.
  revert vs. induction cs as [|constr rest IH]; intros vs H.
  - destruct H as [H|(c & k & [] & _)]. exact H.
  - cbn. apply IH, visited_store_repaired, H.
Qed.

(** C6, as amended.  The transformation returns, and every variable that is
    the variable of an active single-variable linear constraint of the model
    ends with a value that is not above its upper bound, if it has both, and,
    provided its final bounds do not cross, not below its lower bound, if it
    has both. *)
Theorem apply_to_repairs_visited_values (m : Model Expr) :
  exists m',
    _apply_to generate_standard_repn isclose m = Ok m' /\
    forall var,
      visited_var' (constraints m) var ->
      value_le_ub (vars m' var) /\
      (bounds_consistent (vars m' var) -> lb_le_value (vars m' var)).
Proof.
  eexists. split.
  - apply apply_to_run, isclose_zero.
  - intros var Hvar. cbn [vars]. apply run_store_repaired. right. exact Hvar.
Qed.

End Feasibility.

Lemma apply_to_repairs_visited_values_witness :
  exists m',
    _apply_to repn_id (isclose_abs epsilon) scenarios = Ok m' /\
    forall var,
      visited_var repn_id (constraints scenarios) var ->
      value_le_ub (vars m' var) /\
      (bounds_consistent (vars m' var) -> lb_le_value (vars m' var)).
Proof.
  exact (apply_to_repairs_visited_values repn_id (isclose_abs epsilon)
           isclose_epsilon_zero scenarios).
Defined.

(** C6, as stated, fails.  On the model [crossing] the transformation
    returns a model in which [y], a variable of no constraint, still has its
    value 0 below its lower bound 1, and in which [x], with the bounds
    [4 <= x <= 3] that the two constraints give it, has the value 3 below
    its lower bound 4. *)
Lemma value_feasibility_counterexample :
  exists m',
    _apply_to repn_id (isclose_abs epsilon) crossing = Ok m' /\
    vars m' y = {| lb := Some 1; ub := None; value := Some 0 |} /\
    ~ lb_le_value (vars m' y) /\
    vars m' x = {| lb := Some 4; ub := Some 3; value := Some 3 |} /\
    ~ lb_le_value (vars m' x).
Proof.
  eexists. split; [vm_compute; reflexivity|].
  split; [reflexivity|]. split; [|split; [reflexivity|]].
  - cbn. intros H. lra.
  - cbn. intros H. lra.
Qed.

(** ** C4: coefficients close to zero *)

Section Degenerate.

Context {Expr : Type}.
Variable generate_standard_repn : Expr -> StandardRepn.
Variable isclose : Q -> Q -> bool.

Local Abbreviation repn_of constr := (generate_standard_repn (body constr)).

(** Every division of a visit has a divisor that is not close to zero. *)
Lemma divisors_of_visit_not_close (constr : ConstraintData Expr) d :
  In d (divisors_of_visit generate_standard_repn isclose constr) ->
  isclose d 0 = false.
Proof.
  unfold divisors_of_visit. destruct (is_linear _); [|intros []].
  destruct (linear_terms _) as [|[var coef] [|t ts]]; try intros [].
  destruct (isclose coef 0) eqn:Hclose; [intros []|].
  intros Hin. apply in_app_or in Hin.
  destruct (upper constr), (lower constr); cbn in Hin;
    intuition (subst; assumption).
Qed.

Lemma divisors_not_close (cs : list (ConstraintData Expr)) d :
  In d (divisors generate_standard_repn isclose cs) -> isclose d 0 = false.
Proof.
  unfold divisors. rewrite in_flat_map. intros (constr & _ & Hin).
  destruct (active constr); [|destruct Hin].
  eapply divisors_of_visit_not_close, Hin.
Qed.

End Degenerate.

Section DegenerateAbs.

Context {Expr : Type}.
Variable generate_standard_repn : Expr -> StandardRepn.
Variable eps : Q.
Hypothesis eps_pos : 0 < eps.

Local Abbreviation repn_of constr := (generate_standard_repn (body constr)).
Local Abbreviation isclose' := (isclose_abs eps).

(** C4.  Let [isclose (coef, 0)] hold when [coef] is closer to zero than a
    positive epsilon.  The visit of a constraint whose body is
    [coef * var + const] with [|coef| < epsilon] succeeds, executes no
    division, leaves every bound of every variable as it was, and
    deactivates the constraint.  In a run of the loop over any constraints,
    every division has a divisor of absolute value at least epsilon, and the
    transformation returns without a division error on every model. *)
Theorem degenerate_coefficient_not_divided vs (constr : ConstraintData Expr)
    var coef :
  is_linear (repn_of constr) = true ->
  linear_terms (repn_of constr) = [(var, coef)] ->
  Qabs coef < eps ->
  (exists vs1,
     visit generate_standard_repn isclose' vs constr =
       Ok (vs1, deactivate constr) /\
     active (deactivate constr) = false /\
     forall other, lb (vs1 other) = lb (vs other) /\
                   ub (vs1 other) = ub (vs other)) /\
  divisors_of_visit generate_standard_repn isclose' constr = [] /\
  (forall cs d,
     In d (divisors generate_standard_repn isclose' cs) -> eps <= Qabs d) /\
  (forall m, exists m', _apply_to generate_standard_repn isclose' m = Ok m').
Proof.
  intros Hlin Hterms Hsmall.
  assert (Hclose : isclose' coef 0 = true) by (apply isclose_abs_true, Hsmall).
  split; [|split; [|split]].
  - exists (<[var := repair_ub (repair_lb (vs var))]> vs).
    split; [apply (visit_close_to_zero _ _ vs constr var coef); assumption|].
    split; [reflexivity|]. intros other. apply repair_keeps_bounds.
  - unfold divisors_of_visit. rewrite Hlin, Hterms, Hclose. reflexivity.
  - intros cs d Hin. apply isclose_abs_false.
    eapply divisors_not_close, Hin.
  - intros m. eexists. apply apply_to_run, isclose_abs_zero, eps_pos.
Qed.

End DegenerateAbs.

(** Scenario 4 of the spec: [0*x + 5 <= 10], with epsilon 1e-8. *)
Lemma degenerate_coefficient_not_divided_witness :
  (exists vs1,
     visit repn_id (isclose_abs epsilon) x_below_one zero_x_plus_five_le_ten =
       Ok (vs1, deactivate zero_x_plus_five_le_ten) /\
     active (deactivate zero_x_plus_five_le_ten) = false /\
     forall other, lb (vs1 other) = lb (x_below_one other) /\
                   ub (vs1 other) = ub (x_below_one other)) /\
  divisors_of_visit repn_id (isclose_abs epsilon) zero_x_plus_five_le_ten = [] /\
  (forall cs d,
     In d (divisors repn_id (isclose_abs epsilon) cs) -> epsilon <= Qabs d) /\
  (forall m, exists m', _apply_to repn_id (isclose_abs epsilon) m = Ok m').
Proof.
  exact (degenerate_coefficient_not_divided repn_id epsilon epsilon_pos
           x_below_one zero_x_plus_five_le_ten x 0 eq_refl eq_refl eq_refl).
Defined.

(** ** C7: the two entry points *)

Section EntryPoints.

Context {Expr : Type}.
Variable generate_standard_repn : Expr -> StandardRepn.
Variable isclose : Q -> Q -> bool.
Hypothesis isclose_zero : forall c, c == 0 -> isclose c 0 = true.

(** C7.  [_create_using] on a model object returns a new object and leaves
    every object that existed, the given model among them, as it was: no
    bound, value or active flag of it has changed.  The new object is the
    model that [_apply_to] makes of an equal model: the model in the state
    of any object equal to the given one after [_apply_to] on that
    object. *)
Theorem create_using_leaves_original (h : gmap Heap.loc (Model Expr))
    (model : Heap.loc) (m : Model Expr) :
  h !! model = Some m ->
  exists copy h' m',
    Heap._create_using generate_standard_repn isclose model h = Ok (copy, h') /\
    _apply_to generate_standard_repn isclose m = Ok m' /\
    h !! copy = None /\
    (forall l, l <> copy -> h' !! l = h !! l) /\
    h' !! model = Some m /\
    h' !! copy = Some m' /\
    (forall (h0 : gmap Heap.loc (Model Expr)) l0,
       h0 !! l0 = Some m ->
       Heap._apply_to generate_standard_repn isclose l0 h0 =
       Ok (<[l0 := m']> h0)).
Proof.
  intros Hm.
  pose proof (apply_to_run generate_standard_repn isclose isclose_zero m)
    as Hrun.
  set (m' := {| vars := run_store generate_standard_repn isclose
                          (vars m) (constraints m);
                constraints := map (visited_constr generate_standard_repn)
                                 (constraints m) |}) in *.
  set (copy := fresh (dom h)).
  assert (Hfresh : h !! copy = None).
  { apply not_elem_of_dom. apply is_fresh. }
  assert (Hne : model <> copy) by congruence.
  exists copy, (<[copy := m']> (<[copy := m]> h)), m'.
  split; [|split; [exact Hrun|split; [exact Hfresh|split; [|split; [|split]]]]].
  - unfold Heap._create_using, Heap.clone. rewrite Hm. cbn. fold copy.
    unfold Heap._apply_to. rewrite lookup_insert_eq, Hrun. reflexivity.
  - intros l Hl. rewrite !lookup_insert_ne by congruence. reflexivity.
  - rewrite !lookup_insert_ne by congruence. exact Hm.
  - apply lookup_insert_eq.
  - intros h0 l0 H0. unfold Heap._apply_to. rewrite H0, Hrun. reflexivity.
Qed.

End EntryPoints.

Lemma create_using_leaves_original_witness :
  exists copy h' m',
    Heap._create_using repn_id (isclose_abs epsilon) 1%positive
      {[ 1%positive := scenarios ]} = Ok (copy, h') /\
    _apply_to repn_id (isclose_abs epsilon) scenarios = Ok m' /\
    ({[ 1%positive := scenarios ]} : gmap Heap.loc _) !! copy = None /\
    (forall l, l <> copy ->
       h' !! l = ({[ 1%positive := scenarios ]} : gmap Heap.loc _) !! l) /\
    h' !! 1%positive = Some scenarios /\
    h' !! copy = Some m' /\
    (forall (h0 : gmap Heap.loc (Model StandardRepn)) l0,
       h0 !! l0 = Some scenarios ->
       Heap._apply_to repn_id (isclose_abs epsilon) l0 h0 =
       Ok (<[l0 := m']> h0)).
Proof.
  apply (create_using_leaves_original repn_id (isclose_abs epsilon)
           isclose_epsilon_zero {[ 1%positive := scenarios ]} 1%positive
           scenarios).
  apply lookup_singleton_eq.
Defined.

(** ** The scenarios of the spec *)

(** Scenarios 1, 2, 4, 5 and 6 on one model: [x] ends with the bounds
    [-2 <= x <= 2] and the value 2; the three constraints on [x] alone are
    deactivated and [x + y <= 4] is still active. *)
Example scenarios_run :
  exists m',
    _apply_to repn_id (isclose_abs epsilon) scenarios = Ok m' /\
    vars m' x = {| lb := Some (-6 # 3); ub := Some (4 # 2); value := Some (4 # 2) |} /\
    vars m' y = unbounded /\
    map active (constraints m') = [false; false; false; true].
Proof. eexists. split; [vm_compute; reflexivity | repeat split]. Qed.

(** Scenario 3: an upper bound 1 is kept when the constraint implies 2. *)
Example scenario_not_loosened :
  exists m',
    _apply_to repn_id (isclose_abs epsilon)
      {| vars := x_below_one; constraints := [two_x_plus_one_le_five] |} = Ok m' /\
    ub (vars m' x) = Some 1 /\
    map active (constraints m') = [false].
Proof. eexists. split; [vm_compute; reflexivity | repeat split]. Qed.

(** * Further properties *)

(** ** The loop for an arbitrary closeness test *)

Section AnyCloseness.

Context {Expr : Type}.
Variable generate_standard_repn : Expr -> StandardRepn.
Variable isclose : Q -> Q -> bool.

Local Abbreviation repn_of constr := (generate_standard_repn (body constr)).
Local Abbreviation visit' := (visit generate_standard_repn isclose).
Local Abbreviation loop' := (loop generate_standard_repn isclose).
Local Abbreviation single_var' := (single_var generate_standard_repn).
Local Abbreviation visited_store' := (visited_store generate_standard_repn isclose).
Local Abbreviation visited_constr' := (visited_constr generate_standard_repn).
Local Abbreviation run_store' := (run_store generate_standard_repn isclose).
Local Abbreviation divides_by_zero' := (divides_by_zero generate_standard_repn isclose).

Lemma derive_bounds_result (constr : ConstraintData Expr) const coef var :
  derive_bounds isclose constr const coef var =
  if zero_divisor isclose constr coef then Raise ZeroDivisionError
  else Ok {| lb := tighten_lb (lb var) (implied_lb isclose constr const coef);
             ub := tighten_ub (ub var) (implied_ub isclose constr const coef);
             value := value var |}.
Proof.
  unfold derive_bounds, implied_lb, implied_ub, zero_divisor.
  destruct (isclose coef 0) eqn:Hclose.
  { destruct var; reflexivity. }
  unfold fold_upper, fold_lower. cbn [negb andb].
  destruct (Qeq_bool coef 0) eqn:Hzero.
  - apply Qeq_bool_iff in Hzero.
    assert (Hpos : Qltb 0 coef = false) by (apply Qltb_ge; lra).
    assert (Hneg : Qltb coef 0 = false) by (apply Qltb_ge; lra).
    rewrite Hpos, Hneg.
    destruct (upper constr), (lower constr); cbn;
      rewrite ?truediv_zero by assumption; cbn;
      try reflexivity; destruct var; reflexivity.
  - apply Qeq_bool_neq in Hzero. cbn [andb].
    destruct (Qltb 0 coef) eqn:Hpos; [|destruct (Qltb coef 0) eqn:Hneg].
    + destruct (upper constr), (lower constr); cbn;
        rewrite ?truediv_nonzero by assumption; cbn; rewrite ?Hpos;
        destruct var; reflexivity.
    + destruct (upper constr), (lower constr); cbn;
        rewrite ?truediv_nonzero by assumption; cbn; rewrite ?Hpos, ?Hneg;
        destruct var; reflexivity.
    + apply Qltb_ge in Hpos, Hneg. exfalso. apply Hzero. lra.
Qed.

Lemma loop_cons_result vs (constr : ConstraintData Expr) rest :
  loop' vs (constr :: rest) =
  if divides_by_zero' constr then Raise ZeroDivisionError
  else '(vs2, rest1) ← loop' (visited_store' vs constr) rest;
       Ok (vs2, visited_constr' constr :: rest1).
Proof.
  cbn [loop]. unfold divides_by_zero, visited_store, visited_constr.
  destruct (active constr); [|reflexivity].
  destruct (single_var' constr) as [[var coef]|] eqn:Hsv.
  - apply single_var_Some in Hsv as [Hlin Hterms].
    unfold visit. rewrite Hlin, Hterms, derive_bounds_result.
    destruct (zero_divisor isclose constr coef); reflexivity.
  - rewrite (visit_not_single_var _ _ vs constr Hsv). reflexivity.
Qed.

(** The loop raises at the first division by zero and otherwise returns
    what the visits leave. *)
Lemma loop_result (cs : list (ConstraintData Expr)) vs :
  loop' vs cs =
  if existsb divides_by_zero' cs then Raise ZeroDivisionError
  else Ok (run_store' vs cs, map visited_constr' cs).
Proof.
  revert vs. induction cs as [|constr rest IH]; intros vs.
  - reflexivity.
  - rewrite loop_cons_result. cbn [existsb].
    destruct (divides_by_zero' constr); [reflexivity|].
    rewrite IH. cbn [orb].
    destruct (existsb divides_by_zero' rest); reflexivity.
Qed.

Lemma apply_to_result (m : Model Expr) :
  _apply_to generate_standard_repn isclose m =
  if existsb divides_by_zero' (constraints m) then Raise ZeroDivisionError
  else Ok {| vars := run_store' (vars m) (constraints m);
             constraints := map visited_constr' (constraints m) |}.
Proof.
  unfold _apply_to. rewrite loop_result.
  destruct (existsb divides_by_zero' (constraints m)); reflexivity.
Qed.

Lemma divides_by_zero_true (constr : ConstraintData Expr) :
  divides_by_zero' constr = true <->
  active constr = true /\
  exists var coef,
    is_linear (repn_of constr) = true /\
    linear_terms (repn_of constr) = [(var, coef)] /\
    coef == 0 /\ isclose coef 0 = false /\
    (upper constr <> None \/ lower constr <> None).
Proof.
  unfold divides_by_zero, zero_divisor. split.
  - destruct (active constr); [|discriminate].
    destruct (single_var' constr) as [[var coef]|] eqn:Hsv; [|discriminate].
    apply single_var_Some in Hsv as [Hlin Hterms].
    intros H. apply andb_prop in H as [H Hbound].
    apply andb_prop in H as [Hclose Hzero].
    apply negb_true_iff in Hclose. apply Qeq_bool_iff in Hzero.
    split; [reflexivity|]. exists var, coef. repeat split; try assumption.
    destruct (upper constr); [left; discriminate|].
    destruct (lower constr); [right; discriminate | discriminate].
  - intros (Hact & var & coef & Hlin & Hterms & Hzero & Hclose & Hbound).
    rewrite Hact.
    assert (Hsv : single_var' constr = Some (var, coef))
      by (apply single_var_Some; auto).
    rewrite Hsv, Hclose. apply Qeq_bool_iff in Hzero. rewrite Hzero. cbn.
    destruct (upper constr), (lower constr); try reflexivity.
    destruct Hbound; congruence.
Qed.

(** X1.  The transformation raises exactly when the model has an active
    constraint with a linear body of one variable whose coefficient is
    zero, is not close to zero for [isclose], and whose upper or lower bound
    is set; what it raises is a division error. *)
Theorem apply_to_raises_iff (m : Model Expr) (e : exn) :
  _apply_to generate_standard_repn isclose m = Raise e <->
  e = ZeroDivisionError /\
  exists constr var coef,
    In constr (constraints m) /\
    active constr = true /\
    is_linear (repn_of constr) = true /\
    linear_terms (repn_of constr) = [(var, coef)] /\
    coef == 0 /\ isclose coef 0 = false /\
    (upper constr <> None \/ lower constr <> None).
Proof.
  rewrite apply_to_result.
  destruct (existsb divides_by_zero' (constraints m)) eqn:Hex.
  - apply existsb_exists in Hex as (constr & Hin & Hdiv).
    apply divides_by_zero_true in Hdiv as (Hact & var & coef & H).
    split.
    + intros [= <-]. split; [reflexivity|]. exists constr, var, coef. tauto.
    + intros [-> _]. reflexivity.
  - split; [discriminate|].
    intros (_ & constr & var & coef & Hin & Hact & H).
    assert (Hdiv : divides_by_zero' constr = true).
    { apply divides_by_zero_true. split; [exact Hact|]. exists var, coef. exact H. }
    assert (Hex' : existsb divides_by_zero' (constraints m) = true).
    { apply existsb_exists. exists constr. auto. }
    congruence.
Qed.

(** X2.  Whatever the closeness test, the transformation either raises a
    division error or returns a model with as many constraints, in the same
    order, each with the body, the lower bound and the upper bound it had;
    a constraint that was inactive is returned as it was, and a constraint
    that is active in the result was active before and is unchanged. *)
Theorem apply_to_keeps_constraints (m : Model Expr) :
  match _apply_to generate_standard_repn isclose m with
  | Raise e => e = ZeroDivisionError
  | Ok m' =>
      length (constraints m') = length (constraints m) /\
      forall (i : nat) (constr : ConstraintData Expr),
        constraints m !! i = Some constr ->
        exists constr',
          constraints m' !! i = Some constr' /\
          body constr' = body constr /\
          lower constr' = lower constr /\
          upper constr' = upper constr /\
          (active constr = false -> constr' = constr) /\
          (active constr' = true -> constr' = constr)
  end.
Proof.
  rewrite apply_to_result.
  destruct (existsb divides_by_zero' (constraints m)); [reflexivity|].
  cbn [constraints]. split; [apply length_map|].
  intros i constr Hi. exists (visited_constr' constr).
  split; [rewrite list_lookup_fmap, Hi; reflexivity|].
  unfold visited_constr. destruct (active constr) eqn:Hact.
  - destruct (single_var' constr); cbn; repeat split; auto; discriminate.
  - repeat split; auto.
Qed.

End AnyCloseness.

(** A closeness test that lets a zero coefficient through: [0*x + 5 <= 10]
    then makes line 59 divide by zero. *)
Example apply_to_raises_without_guard :
  _apply_to repn_id (fun _ _ => false) scenarios = Raise ZeroDivisionError.
Proof. reflexivity. Qed.

(** ** The bounds the transformation leaves and the constraints it folds *)

Lemma le_div_pos (a k c x0 : Q) :
  0 < c -> (x0 <= (a - k) / c <-> c * x0 + k <= a).
Proof.
  intros Hc.
  assert (Hq : c * ((a - k) / c) == a - k) by (apply Qmult_div_r; lra).
  rewrite <- (Qmult_le_l x0 ((a - k) / c) c Hc). rewrite Hq. split; lra.
Qed.

Lemma div_le_pos (a k c x0 : Q) :
  0 < c -> ((a - k) / c <= x0 <-> a <= c * x0 + k).
Proof.
  intros Hc.
  assert (Hq : c * ((a - k) / c) == a - k) by (apply Qmult_div_r; lra).
  rewrite <- (Qmult_le_l ((a - k) / c) x0 c Hc). rewrite Hq. split; lra.
Qed.

Lemma le_div_neg (a k c x0 : Q) :
  c < 0 -> (x0 <= (a - k) / c <-> a <= c * x0 + k).
Proof.
  intros Hc.
  assert (Hq : c * ((a - k) / c) == a - k) by (apply Qmult_div_r; lra).
  assert (Hc' : 0 < - c) by lra.
  remember ((a - k) / c) as q eqn:Eq. clear Eq.
  rewrite <- (Qmult_le_l x0 q (- c) Hc').
  assert (Hq' : - c * q == - (a - k)) by (rewrite <- Hq; ring).
  rewrite Hq'. split; lra.
Qed.

Lemma div_le_neg (a k c x0 : Q) :
  c < 0 -> ((a - k) / c <= x0 <-> c * x0 + k <= a).
Proof.
  intros Hc.
  assert (Hq : c * ((a - k) / c) == a - k) by (apply Qmult_div_r; lra).
  assert (Hc' : 0 < - c) by lra.
  remember ((a - k) / c) as q eqn:Eq. clear Eq.
  rewrite <- (Qmult_le_l q x0 (- c) Hc').
  assert (Hq' : - c * q == - (a - k)) by (rewrite <- Hq; ring).
  rewrite Hq'. split; lra.
Qed.

Lemma tighten_ub_below (old newbound : option Q) (x0 : Q) :
  below_ub (tighten_ub old newbound) x0 <->
  below_ub old x0 /\ below_ub newbound x0.
Proof.
  destruct old as [u|], newbound as [b|]; cbn; try tauto.
  destruct (pymin_cases u b) as [[? ->]|[? ->]]; split; intros; try split; lra.
Qed.

Lemma tighten_lb_above (old newbound : option Q) (x0 : Q) :
  above_lb (tighten_lb old newbound) x0 <->
  above_lb old x0 /\ above_lb newbound x0.
Proof.
  destruct old as [l|], newbound as [b|]; cbn; try tauto.
  destruct (pymax_cases l b) as [[? ->]|[? ->]]; split; intros; try split; lra.
Qed.

Section FeasibleSet.

Context {Expr : Type}.
Variable generate_standard_repn : Expr -> StandardRepn.
Variable isclose : Q -> Q -> bool.
Hypothesis isclose_zero : forall c, c == 0 -> isclose c 0 = true.

Local Abbreviation repn_of constr := (generate_standard_repn (body constr)).
Local Abbreviation single_var' := (single_var generate_standard_repn).
Local Abbreviation run_store' := (run_store generate_standard_repn isclose).
Local Abbreviation brought_lb' := (brought_lb generate_standard_repn isclose).
Local Abbreviation brought_ub' := (brought_ub generate_standard_repn isclose).

Lemma run_store_within (cs : list (ConstraintData Expr)) vs var x0 :
  within_bounds (run_store' vs cs var) x0 <->
  within_bounds (vs var) x0 /\
  forall constr, In constr cs ->
    above_lb (brought_lb' constr var) x0 /\
    below_ub (brought_ub' constr var) x0.
Proof.
  revert vs. induction cs as [|constr rest IH]; intros vs.
  - cbn. split; [intros H; split; [exact H | intros c []] | tauto].
  - cbn [run_store fold_left]. fold (run_store' (visited_store generate_standard_repn isclose vs constr) rest).
    rewrite IH. unfold within_bounds at 1.
    destruct (visited_store_bounds generate_standard_repn isclose vs constr var)
      as [-> ->].
    rewrite tighten_lb_above, tighten_ub_below. unfold within_bounds.
    split.
    + intros [[[Hl Hbl] [Hu Hbu]] Hrest]. split; [auto|].
      intros c [<-|Hin]; auto.
    + intros [[Hl Hu] Hall]. split.
      * destruct (Hall constr (or_introl eq_refl)). auto.
      * intros c Hin. apply Hall. right. exact Hin.
Qed.

(** The bounds a constraint brings to its variable say what the constraint
    says, when its coefficient is not close to zero. *)
Lemma implied_satisfies (constr : ConstraintData Expr) const coef x0 :
  isclose coef 0 = false ->
  (above_lb (implied_lb isclose constr const coef) x0 /\
   below_ub (implied_ub isclose constr const coef) x0 <->
   satisfies constr const coef x0).
Proof.
  intros Hclose. pose proof (not_close_nonzero _ isclose_zero _ Hclose) as Hnz.
  unfold implied_lb, implied_ub, satisfies. rewrite Hclose.
  destruct (Qltb 0 coef) eqn:Hpos; [|destruct (Qltb coef 0) eqn:Hneg].
  - apply Qltb_lt in Hpos.
    destruct (upper constr) as [U|], (lower constr) as [L|]; cbn;
      rewrite ?(le_div_pos _ _ _ _ Hpos), ?(div_le_pos _ _ _ _ Hpos); tauto.
  - apply Qltb_lt in Hneg.
    destruct (upper constr) as [U|], (lower constr) as [L|]; cbn;
      rewrite ?(le_div_neg _ _ _ _ Hneg), ?(div_le_neg _ _ _ _ Hneg); tauto.
  - apply Qltb_ge in Hpos, Hneg. exfalso. apply Hnz. lra.
Qed.

Lemma implied_close (constr : ConstraintData Expr) const coef :
  isclose coef 0 = true ->
  implied_lb isclose constr const coef = None /\
  implied_ub isclose constr const coef = None.
Proof. intros H. unfold implied_lb, implied_ub. rewrite H. auto. Qed.

Lemma brought_satisfies (constr : ConstraintData Expr) var x0 :
  above_lb (brought_lb' constr var) x0 /\
  below_ub (brought_ub' constr var) x0 <->
  (forall coef,
     active constr = true ->
     single_var' constr = Some (var, coef) ->
     isclose coef 0 = false ->
     satisfies constr (constant (repn_of constr)) coef x0).
Proof.
  unfold brought_lb, brought_ub.
  destruct (active constr); [|cbn; split; [discriminate | auto]].
  destruct (single_var' constr) as [[v coef]|]; [|cbn; split; [discriminate | auto]].
  destruct (decide (v = var)) as [->|Hne].
  - destruct (isclose coef 0) eqn:Hclose.
    + destruct (implied_close constr (constant (repn_of constr)) coef Hclose)
        as [-> ->].
      cbn. split; [|auto]. intros _ k _ [= <-] Hk. congruence.
    + rewrite (implied_satisfies constr _ coef x0 Hclose). split.
      * intros H k _ [= <-] _. exact H.
      * intros H. apply (H coef); auto.
  - cbn. split; [|auto]. intros _ k _ [= Hv _]. contradiction.
Qed.

(** X3.  The transformation returns, and the bounds it leaves on a variable
    allow exactly the numbers that the bounds before allowed and that
    satisfy every active constraint with a linear body in that variable
    alone and a coefficient not close to zero: a folded constraint is
    never violated inside the new bounds, and no number that the old bounds
    and these constraints allow is cut off. *)
Theorem apply_to_same_feasible_set (m : Model Expr) :
  exists m',
    _apply_to generate_standard_repn isclose m = Ok m' /\
    forall var x0,
      within_bounds (vars m' var) x0 <->
      within_bounds (vars m var) x0 /\
      forall constr coef,
        In constr (constraints m) ->
        active constr = true ->
        is_linear (repn_of constr) = true ->
        linear_terms (repn_of constr) = [(var, coef)] ->
        isclose coef 0 = false ->
        satisfies constr (constant (repn_of constr)) coef x0.
Proof.
  eexists. split.
  - apply apply_to_run, isclose_zero.
  - intros var x0. cbn [vars]. rewrite run_store_within.
    split; intros [Hold Hall]; (split; [exact Hold|]).
    + intros constr coef Hin Hact Hlin Hterms Hclose.
      apply (proj1 (brought_satisfies constr var x0) (Hall constr Hin) coef);
        auto.
      apply single_var_Some. auto.
    + intros constr Hin. apply brought_satisfies.
      intros coef Hact Hsv Hclose. apply single_var_Some in Hsv as [Hlin Hterms].
      eapply Hall; eauto.
Qed.

End FeasibleSet.

(** On the scenarios of the spec. *)
Lemma apply_to_same_feasible_set_witness :
  exists m',
    _apply_to repn_id (isclose_abs epsilon) scenarios = Ok m' /\
    forall var x0,
      within_bounds (vars m' var) x0 <->
      within_bounds (vars scenarios var) x0 /\
      forall constr coef,
        In constr (constraints scenarios) ->
        active constr = true ->
        is_linear (repn_id (body constr)) = true ->
        linear_terms (repn_id (body constr)) = [(var, coef)] ->
        isclose_abs epsilon coef 0 = false ->
        satisfies constr (constant (repn_id (body constr))) coef x0.
Proof.
  exact (apply_to_same_feasible_set repn_id (isclose_abs epsilon)
           isclose_epsilon_zero scenarios).
Defined.

(** ** What the transformation leaves alone *)

Section Untouched.

Context {Expr : Type}.
Variable generate_standard_repn : Expr -> StandardRepn.
Variable isclose : Q -> Q -> bool.

Local Abbreviation repn_of constr := (generate_standard_repn (body constr)).
Local Abbreviation loop' := (loop generate_standard_repn isclose).
Local Abbreviation single_var' := (single_var generate_standard_repn).
Local Abbreviation visited_store' := (visited_store generate_standard_repn isclose).
Local Abbreviation visited_constr' := (visited_constr generate_standard_repn).
Local Abbreviation run_store' := (run_store generate_standard_repn isclose).
Local Abbreviation visited_var' := (visited_var generate_standard_repn).
Local Abbreviation divides_by_zero' := (divides_by_zero generate_standard_repn isclose).

Lemma visited_store_other vs (constr : ConstraintData Expr) var :
  (forall coef, active constr = true ->
                single_var' constr = Some (var, coef) -> False) ->
  visited_store' vs constr var = vs var.
Proof.
  intros Hnot. unfold visited_store.
  destruct (active constr); [|reflexivity].
  destruct (single_var' constr) as [[v coef]|]; [|reflexivity].
  cbv zeta. destruct (decide (v = var)) as [->|Hne].
  - exfalso. eapply Hnot; reflexivity.
  - apply store_lookup_insert_ne. exact Hne.
Qed.

Lemma run_store_unvisited (cs : list (ConstraintData Expr)) vs var :
  ~ visited_var' cs var -> run_store' vs cs var = vs var.
Proof.
  revert vs. induction cs as [|constr rest IH]; intros vs Hnot.
  - reflexivity.
  - cbn [run_store fold_left].
    fold (run_store' (visited_store' vs constr) rest).
    rewrite IH.
    + apply visited_store_other. intros coef Hact Hsv. apply Hnot.
      exists constr, coef. cbn. auto.
    + intros (c & k & Hin & Hc & Hk). apply Hnot. exists c, k. cbn. auto.
Qed.

(** X4.  Whatever the closeness test, the transformation either raises a
    division error or returns a model in which every variable that is not
    the variable of an active single-variable linear constraint has the
    lower bound, the upper bound and the value that it had. *)
Theorem apply_to_keeps_other_variables (m : Model Expr) :
  match _apply_to generate_standard_repn isclose m with
  | Raise e => e = ZeroDivisionError
  | Ok m' =>
      forall var,
        ~ visited_var' (constraints m) var -> vars m' var = vars m var
  end.
Proof.
  rewrite apply_to_result.
  destruct (existsb divides_by_zero' (constraints m)); [reflexivity|].
  intros var Hnot. cbn [vars]. apply run_store_unvisited, Hnot.
Qed.

Lemma visited_constr_fixed (constr : ConstraintData Expr) :
  visited_constr' constr = constr <->
  active constr = false \/ single_var' constr = None.
Proof.
  unfold visited_constr. destruct (active constr) eqn:Hact.
  - destruct (single_var' constr) eqn:Hsv.
    + split.
      * intros H. apply (f_equal active) in H. cbn in H. congruence.
      * intros [H|H]; discriminate.
    + split; auto.
  - split; auto.
Qed.

Lemma map_fixed {A : Type} (f : A -> A) (l : list A) :
  map f l = l <-> forall a, In a l -> f a = a.
Proof.
  induction l as [|a l IH]; cbn.
  - split; [intros _ a [] | reflexivity].
  - split.
    + intros [= Ha Hl] b [<-|Hb]; [exact Ha | apply IH; assumption].
    + intros H. f_equal; [apply H; auto | apply IH; auto].
Qed.

Lemma run_store_fixed (cs : list (ConstraintData Expr)) vs :
  (forall constr, In constr cs ->
     active constr = false \/ single_var' constr = None) ->
  run_store' vs cs = vs.
Proof.
  revert vs. induction cs as [|constr rest IH]; intros vs H; [reflexivity|].
  cbn [run_store fold_left].
  fold (run_store' (visited_store' vs constr) rest).
  assert (Hc : visited_store' vs constr = vs).
  { unfold visited_store.
    destruct (H constr (or_introl eq_refl)) as [-> | ->];
      [reflexivity | destruct (active constr); reflexivity]. }
  rewrite Hc. apply IH. intros c Hin. apply H. right. exact Hin.
Qed.

(** X5.  Whatever the closeness test, the transformation returns the model
    it was given, with nothing changed, exactly when no constraint of the
    model is active with a linear body of exactly one variable. *)
Theorem apply_to_noop_iff (m : Model Expr) :
  _apply_to generate_standard_repn isclose m = Ok m <->
  forall constr,
    In constr (constraints m) ->
    active constr = false \/
    is_linear (repn_of constr) = false \/
    length (linear_vars (repn_of constr)) <> 1%nat.
Proof.
  assert (Hshape : forall constr : ConstraintData Expr,
             active constr = false \/ single_var' constr = None <->
             active constr = false \/
             is_linear (repn_of constr) = false \/
             length (linear_vars (repn_of constr)) <> 1%nat).
  { intros constr. rewrite single_var_None. tauto. }
  rewrite apply_to_result. destruct m as [vs cs]. cbn [vars constraints].
  destruct (existsb divides_by_zero' cs) eqn:Hex.
  - split; [discriminate|]. intros H. exfalso.
    apply existsb_exists in Hex as (constr & Hin & Hdiv).
    specialize (H constr Hin). apply Hshape in H.
    unfold divides_by_zero in Hdiv.
    destruct H as [H|H]; rewrite H in Hdiv; [discriminate|].
    destruct (active constr); discriminate.
  - split.
    + intros [= Hvs Hcs] constr Hin. apply Hshape, visited_constr_fixed.
      revert constr Hin. apply map_fixed. exact Hcs.
    + intros H. f_equal. f_equal.
      * apply run_store_fixed. intros c Hin. apply Hshape, H, Hin.
      * apply map_fixed. intros c Hin. apply visited_constr_fixed, Hshape, H, Hin.
Qed.

(** X6.  An inactive constraint is not visited, whatever its body: the loop
    over any constraints with it among them gives the result of the loop
    without it, with the constraint put back at its place as it was. *)
Theorem inactive_constraint_skipped (constr : ConstraintData Expr) :
  active constr = false ->
  forall vs before after,
    loop' vs (before ++ constr :: after) =
    match loop' vs (before ++ after) with
    | Ok (vs', cs') =>
        Ok (vs', take (length before) cs' ++ constr :: drop (length before) cs')
    | Raise e => Raise e
    end.
Proof.
  intros Hact vs before after. revert vs.
  induction before as [|c0 before IH]; intros vs.
  - cbn [app length loop]. rewrite Hact. cbn.
    destruct (loop' vs after) as [[vs' cs']|e]; reflexivity.
  - cbn [app length loop].
    destruct (if active c0 then visit generate_standard_repn isclose vs c0
              else Ok (vs, c0)) as [[vs1 c1]|e]; [|reflexivity].
    cbn. rewrite IH.
    destruct (loop' vs1 (before ++ after)) as [[vs' cs']|e]; reflexivity.
Qed.

End Untouched.

(** [x <= 3], deactivated, between [2*x + 1 <= 5] and [4 <= x]. *)
Lemma inactive_constraint_skipped_witness :
  loop repn_id (isclose_abs epsilon) free_store
    ([two_x_plus_one_le_five] ++ deactivate x_le_three :: [four_le_x]) =
  match loop repn_id (isclose_abs epsilon) free_store
          ([two_x_plus_one_le_five] ++ [four_le_x]) with
  | Ok (vs', cs') =>
      Ok (vs', take (length [two_x_plus_one_le_five]) cs' ++
               deactivate x_le_three ::
               drop (length [two_x_plus_one_le_five]) cs')
  | Raise e => Raise e
  end.
Proof.
  exact (inactive_constraint_skipped repn_id (isclose_abs epsilon)
           (deactivate x_le_three) eq_refl free_store
           [two_x_plus_one_le_five] [four_le_x]).
Defined.

(** ** The values the transformation leaves *)

Lemma above_lb_looser (b1 b2 : option Q) (a : Q) :
  lb_no_looser b1 b2 -> above_lb b2 a -> above_lb b1 a.
Proof. destruct b1, b2; cbn; try tauto. intros. lra. Qed.

Lemma below_ub_looser (b1 b2 : option Q) (a : Q) :
  ub_no_looser b1 b2 -> below_ub b2 a -> below_ub b1 a.
Proof. destruct b1, b2; cbn; try tauto. intros. lra. Qed.

(** Lines 86-91 leave a value that is within the bounds. *)
Lemma repair_within (var : VarData) (a : Q) :
  value var = Some a -> within_bounds var a ->
  repair_ub (repair_lb var) = var.
Proof.
  unfold within_bounds, above_lb, below_ub, repair_ub, repair_lb.
  destruct var as [[l|] [u|] [v|]]; cbn; intros [= ->] [Hl Hu];
    try reflexivity.
  - apply Qltb_ge in Hl. rewrite Hl. cbn.
    apply Qltb_ge in Hu. rewrite Hu. reflexivity.
  - apply Qltb_ge in Hl. rewrite Hl. reflexivity.
  - apply Qltb_ge in Hu. rewrite Hu. reflexivity.
Qed.

(** Lines 86-91 give no value to a variable that has none. *)
Lemma repair_no_value (var : VarData) :
  value var = None -> value (repair_ub (repair_lb var)) = None.
Proof.
  unfold repair_ub, repair_lb.
  destruct var as [[l|] [u|] [v|]]; cbn; intros H; try discriminate;
    reflexivity.
Qed.

Section Values.

Context {Expr : Type}.
Variable generate_standard_repn : Expr -> StandardRepn.
Variable isclose : Q -> Q -> bool.

Local Abbreviation visited_store' := (visited_store generate_standard_repn isclose).
Local Abbreviation run_store' := (run_store generate_standard_repn isclose).
Local Abbreviation divides_by_zero' := (divides_by_zero generate_standard_repn isclose).

Lemma folded_no_value (constr : ConstraintData Expr) const coef var :
  value var = None -> value (folded isclose constr const coef var) = None.
Proof. intros H. unfold folded. apply repair_no_value. exact H. Qed.

Lemma folded_within (constr : ConstraintData Expr) const coef var a :
  value var = Some a ->
  within_bounds (folded isclose constr const coef var) a ->
  value (folded isclose constr const coef var) = Some a.
Proof.
  intros Hv Hin. unfold within_bounds in Hin.
  rewrite lb_folded, ub_folded in Hin.
  unfold folded. rewrite (repair_within _ a); [exact Hv | exact Hv | exact Hin].
Qed.

Lemma visited_store_value vs (constr : ConstraintData Expr) var :
  (value (vs var) = None -> value (visited_store' vs constr var) = None) /\
  (forall a, value (vs var) = Some a ->
     within_bounds (visited_store' vs constr var) a ->
     value (visited_store' vs constr var) = Some a).
Proof.
  unfold visited_store.
  destruct (active constr); [|split; auto].
  destruct (single_var _ constr) as [[v coef]|]; [|split; auto].
  cbv zeta. destruct (decide (v = var)) as [->|Hne].
  - rewrite store_lookup_insert. split.
    + apply folded_no_value.
    + intros a. apply folded_within.
  - rewrite store_lookup_insert_ne by assumption. split; auto.
Qed.

Lemma run_store_value (cs : list (ConstraintData Expr)) vs var :
  (value (vs var) = None -> value (run_store' vs cs var) = None) /\
  (forall a, value (vs var) = Some a ->
     within_bounds (run_store' vs cs var) a ->
     value (run_store' vs cs var) = Some a).
Proof.
  revert vs. induction cs as [|constr rest IH]; intros vs; [split; auto|].
  cbn [run_store fold_left].
  fold (run_store' (visited_store' vs constr) rest).
  destruct (visited_store_value vs constr var) as [Hnone Hsome].
  destruct (IH (visited_store' vs constr)) as [IHnone IHsome].
  split; [auto|].
  intros a Hv Hin. apply IHsome; [|exact Hin]. apply Hsome; [exact Hv|].
  destruct (run_store_no_looser generate_standard_repn isclose rest
              (visited_store' vs constr) var) as [Hl Hu].
  destruct Hin as [Hal Hbu]. split.
  - eapply above_lb_looser; eassumption.
  - eapply below_ub_looser; eassumption.
Qed.

(** X7.  Whatever the closeness test, the transformation either raises a
    division error or returns a model in which a variable that had no value
    has none, and a variable whose value is within the bounds it ends with
    still has that value: a value is only ever moved when a bound excludes
    it. *)
Theorem apply_to_keeps_feasible_values (m : Model Expr) :
  match _apply_to generate_standard_repn isclose m with
  | Raise e => e = ZeroDivisionError
  | Ok m' =>
      forall var,
        (value (vars m var) = None -> value (vars m' var) = None) /\
        (forall a, value (vars m var) = Some a ->
           within_bounds (vars m' var) a ->
           value (vars m' var) = Some a)
  end.
Proof.
  rewrite apply_to_result.
  destruct (existsb divides_by_zero' (constraints m)); [reflexivity|].
  intros var. cbn [vars]. apply run_store_value.
Qed.

End Values.

Lemma value_from_start (var : VarData) : value_from (value var) var.
Proof. left. reflexivity. Qed.

(** After lines 53-91 the value is the one before the visit, or it is the
    lower or the upper bound the visit leaves. *)
Lemma tighten_repair_value_from (original : option Q) (var : VarData)
    (n1 n2 : option Q) :
  value_from original var ->
  value_from original
    (repair_ub (repair_lb {| lb := tighten_lb (lb var) n1;
                             ub := tighten_ub (ub var) n2;
                             value := value var |})).
Proof.
  unfold value_from, repair_ub, repair_lb, tighten_lb, tighten_ub, pymax, pymin.
  destruct var as [[l|] [u|] [a|]], n1 as [b1|], n2 as [b2|]; cbn;
    intros [H|[Hne [H|H]]];
    try (exfalso; apply Hne; reflexivity); try discriminate;
    try (injection H as ->);
    repeat (match goal with
            | |- context [Qltb ?p ?q] => destruct (Qltb p q) eqn:?; cbn
            end);
    try (left; assumption);
    try (left; reflexivity);
    try (right; split; [discriminate|]; first [left; reflexivity | right; reflexivity]);
    try congruence.
Qed.

Lemma tighten_ub_attained (old newbound : option Q) :
  tighten_ub old newbound = old \/
  (newbound <> None /\ tighten_ub old newbound = newbound).
Proof.
  destruct old as [u|], newbound as [b|]; cbn.
  - destruct (pymin_cases u b) as [[_ ->]|[_ ->]].
    + right. split; [discriminate | reflexivity].
    + left. reflexivity.
  - left. reflexivity.
  - right. split; [discriminate | reflexivity].
  - left. reflexivity.
Qed.

Lemma tighten_lb_attained (old newbound : option Q) :
  tighten_lb old newbound = old \/
  (newbound <> None /\ tighten_lb old newbound = newbound).
Proof.
  destruct old as [l|], newbound as [b|]; cbn.
  - destruct (pymax_cases l b) as [[_ ->]|[_ ->]].
    + right. split; [discriminate | reflexivity].
    + left. reflexivity.
  - left. reflexivity.
  - right. split; [discriminate | reflexivity].
  - left. reflexivity.
Qed.

Section Origins.

Context {Expr : Type}.
Variable generate_standard_repn : Expr -> StandardRepn.
Variable isclose : Q -> Q -> bool.

Local Abbreviation visited_store' := (visited_store generate_standard_repn isclose).
Local Abbreviation run_store' := (run_store generate_standard_repn isclose).
Local Abbreviation brought_lb' := (brought_lb generate_standard_repn isclose).
Local Abbreviation brought_ub' := (brought_ub generate_standard_repn isclose).
Local Abbreviation divides_by_zero' := (divides_by_zero generate_standard_repn isclose).

Lemma visited_store_value_from original vs (constr : ConstraintData Expr) var :
  value_from original (vs var) ->
  value_from original (visited_store' vs constr var).
Proof.
  intros H. unfold visited_store.
  destruct (active constr); [|exact H].
  destruct (single_var _ constr) as [[v coef]|]; [|exact H].
  cbv zeta. destruct (decide (v = var)) as [->|Hne].
  - rewrite store_lookup_insert. unfold folded.
    apply tighten_repair_value_from, H.
  - rewrite store_lookup_insert_ne by assumption. exact H.
Qed.

Lemma run_store_value_from original (cs : list (ConstraintData Expr)) vs var :
  value_from original (vs var) ->
  value_from original (run_store' vs cs var).
Proof.
  revert vs. induction cs as [|constr rest IH]; intros vs H; [exact H|].
  cbn [run_store fold_left]. apply IH, visited_store_value_from, H.
Qed.

(** X8.  Whatever the closeness test, the transformation either raises a
    division error or returns a model in which the value of every variable
    is the value it had, or is exactly the lower bound or exactly the upper
    bound the variable ends with: the transformation never computes a new
    value. *)
Theorem apply_to_value_origin (m : Model Expr) :
  match _apply_to generate_standard_repn isclose m with
  | Raise e => e = ZeroDivisionError
  | Ok m' =>
      forall var,
        value (vars m' var) = value (vars m var) \/
        (value (vars m' var) <> None /\
         (value (vars m' var) = lb (vars m' var) \/
          value (vars m' var) = ub (vars m' var)))
  end.
Proof.
  rewrite apply_to_result.
  destruct (existsb divides_by_zero' (constraints m)); [reflexivity|].
  intros var. cbn [vars].
  apply (run_store_value_from (value (vars m var))), value_from_start.
Qed.

Lemma run_store_ub_attained (cs : list (ConstraintData Expr)) vs var :
  ub (run_store' vs cs var) = ub (vs var) \/
  exists constr,
    In constr cs /\ brought_ub' constr var <> None /\
    ub (run_store' vs cs var) = brought_ub' constr var.
Proof.
  revert vs. induction cs as [|constr rest IH]; intros vs; [left; reflexivity|].
  cbn [run_store fold_left].
  fold (run_store' (visited_store' vs constr) rest).
  destruct (IH (visited_store' vs constr)) as [-> | (c & Hin & Hc)].
  - destruct (visited_store_bounds generate_standard_repn isclose vs constr var)
      as [_ ->].
    destruct (tighten_ub_attained (ub (vs var)) (brought_ub' constr var))
      as [-> | [Hne ->]]; [left; reflexivity|].
    right. exists constr. cbn. auto.
  - right. exists c. cbn. tauto.
Qed.

Lemma run_store_lb_attained (cs : list (ConstraintData Expr)) vs var :
  lb (run_store' vs cs var) = lb (vs var) \/
  exists constr,
    In constr cs /\ brought_lb' constr var <> None /\
    lb (run_store' vs cs var) = brought_lb' constr var.
Proof.
  revert vs. induction cs as [|constr rest IH]; intros vs; [left; reflexivity|].
  cbn [run_store fold_left].
  fold (run_store' (visited_store' vs constr) rest).
  destruct (IH (visited_store' vs constr)) as [-> | (c & Hin & Hc)].
  - destruct (visited_store_bounds generate_standard_repn isclose vs constr var)
      as [-> _].
    destruct (tighten_lb_attained (lb (vs var)) (brought_lb' constr var))
      as [-> | [Hne ->]]; [left; reflexivity|].
    right. exists constr. cbn. auto.
  - right. exists c. cbn. tauto.
Qed.

(** X9.  Whatever the closeness test, the transformation either raises a
    division error or returns a model in which each bound of each variable
    is the bound the variable had or is exactly the bound that one
    constraint of the model brings to it: bounds of several constraints are
    never combined into a new number. *)
Theorem apply_to_bound_origin (m : Model Expr) :
  match _apply_to generate_standard_repn isclose m with
  | Raise e => e = ZeroDivisionError
  | Ok m' =>
      forall var,
        (lb (vars m' var) = lb (vars m var) \/
         exists constr,
           In constr (constraints m) /\ brought_lb' constr var <> None /\
           lb (vars m' var) = brought_lb' constr var) /\
        (ub (vars m' var) = ub (vars m var) \/
         exists constr,
           In constr (constraints m) /\ brought_ub' constr var <> None /\
           ub (vars m' var) = brought_ub' constr var)
  end.
Proof.
  rewrite apply_to_result.
  destruct (existsb divides_by_zero' (constraints m)); [reflexivity|].
  intros var. cbn [vars]. split.
  - apply run_store_lb_attained.
  - apply run_store_ub_attained.
Qed.

End Origins.

(** ** Constraints in sequence *)

Section Sequence.

Context {Expr : Type}.
Variable generate_standard_repn : Expr -> StandardRepn.
Variable isclose : Q -> Q -> bool.

Local Abbreviation loop' := (loop generate_standard_repn isclose).
Local Abbreviation visited_store' := (visited_store generate_standard_repn isclose).
Local Abbreviation run_store' := (run_store generate_standard_repn isclose).
Local Abbreviation visited_var' := (visited_var generate_standard_repn).
Local Abbreviation divides_by_zero' := (divides_by_zero generate_standard_repn isclose).


(** Lines 86-91 leave the value on the upper bound when the bounds cross. *)
Lemma repair_crossing (var : VarData) (l u : Q) :
  lb var = Some l -> ub var = Some u -> u < l -> value var <> None ->
  value (repair_ub (repair_lb var)) = Some u.
Proof.
  unfold repair_ub, repair_lb.
  destruct var as [[l'|] [u'|] [a|]]; cbn; intros [= ->] [= ->] Hcross Hv;
    try (exfalso; apply Hv; reflexivity).
  destruct (Qltb a l) eqn:E1; cbn.
  - apply Qltb_lt in Hcross. rewrite Hcross. reflexivity.
  - apply Qltb_ge in E1. assert (E2 : Qltb u a = true) by (apply Qltb_lt; lra).
    rewrite E2. reflexivity.
Qed.

Lemma folded_at_ub_if_crossing (constr : ConstraintData Expr) const coef var :
  at_ub_if_crossing (folded isclose constr const coef var).
Proof.
  unfold folded. intros l u Hl Hu Hcross Hv.
  rewrite lb_repair_ub, lb_repair_lb in Hl.
  rewrite ub_repair_ub, ub_repair_lb in Hu.
  apply (repair_crossing _ l u Hl Hu Hcross).
  intros Hnone. apply Hv. apply repair_no_value. exact Hnone.
Qed.

Lemma run_store_at_ub_if_crossing (cs : list (ConstraintData Expr)) vs var :
  at_ub_if_crossing (vs var) \/ visited_var' cs var ->
  at_ub_if_crossing (run_store' vs cs var).
Proof.
  revert vs. induction cs as [|constr rest IH]; intros vs H.
  - destruct H as [H|(c & k & [] & _)]. exact H.
  - cbn [run_store fold_left]. apply IH. unfold visited_store.
    destruct (active constr) eqn:Hact.
    + destruct (single_var _ constr) as [[v coef]|] eqn:Hsv.
      * cbv zeta. destruct (decide (v = var)) as [->|Hne].
        -- left. rewrite store_lookup_insert. apply folded_at_ub_if_crossing.
        -- rewrite store_lookup_insert_ne by assumption.
           destruct H as [H|(c & k & [<-|Hin] & Hc & Hk)]; [auto| |].
           ++ congruence.
           ++ right. exists c, k. auto.
      * destruct H as [H|(c & k & [<-|Hin] & Hc & Hk)]; [auto| |].
        -- congruence.
        -- right. exists c, k. auto.
    + destruct H as [H|(c & k & [<-|Hin] & Hc & Hk)]; [auto| |].
      * congruence.
      * right. exists c, k. auto.
Qed.

(** X11.  Whatever the closeness test, the transformation either raises a
    division error or returns a model in which a variable of an active
    single-variable linear constraint that has a value and ends with a
    lower bound above its upper bound has its value on the upper bound:
    the repair of the upper bound comes last and wins. *)
Theorem apply_to_crossing_bounds_value (m : Model Expr) :
  match _apply_to generate_standard_repn isclose m with
  | Raise e => e = ZeroDivisionError
  | Ok m' =>
      forall var l u,
        visited_var' (constraints m) var ->
        lb (vars m' var) = Some l ->
        ub (vars m' var) = Some u ->
        u < l ->
        value (vars m' var) <> None ->
        value (vars m' var) = Some u
  end.
Proof.
  rewrite apply_to_result.
  destruct (existsb divides_by_zero' (constraints m)); [reflexivity|].
  intros var l u Hvar. cbn [vars].
  apply (run_store_at_ub_if_crossing (constraints m) (vars m) var).
  right. exact Hvar.
Qed.

End Sequence.

(** The model [crossing]: [x] ends with the bounds [4 <= x <= 3] and the
    value 3. *)
Example crossing_run :
  exists m',
    _apply_to repn_id (isclose_abs epsilon) crossing = Ok m' /\
    vars m' x = {| lb := Some 4; ub := Some 3; value := Some 3 |}.
Proof. eexists. split; [vm_compute; reflexivity | reflexivity]. Qed.
